(** * password: a shallow embedding of the Go password generator

    The development follows [password.go].  On a 64-bit platform Go's
    [uint] is a 64-bit unsigned integer: it is a [Z] here and every
    operation that can leave [0, 2^64) is wrapped explicitly.  A slice of runes is a [list rune];
    a function returning [(value, error)] returns a pair here as well,
    [None] standing for Go's [nil].  A run-time panic (index out of range,
    [makeslice: len out of range], a panicking provider) is the outcome
    [Panics]. *)

From Stdlib Require Import ZArith String Lia.
From stdpp Require Import base numbers list.

Local Open Scope Z_scope.

(** ** Machine integers, runes, slices *)

Definition uint := Z.
Definition uint_size : Z := 2 ^ 64.
Definition wrap (x : Z) : uint := x mod uint_size.
Definition is_uint (x : Z) : Prop := 0 <= x < uint_size.

Definition rune := Z.

#[global] Typeclasses Transparent uint rune.

(** [len(s)] of Go.  A length is a non-negative [int], so the conversion
    [uint(len(s))] of the source does not change it. *)
Definition len {A : Type} (s : list A) : Z := Z.of_nat (length s).

(** The loops of the source are all of the form
    [for i := uint(0); i < n; i++]; [iterations n] is how often the body
    is entered when nothing leaves the loop early.  The loop variable stays
    below [n], so [i++] never wraps around. *)
Definition iterations (n : uint) : nat := Z.to_nat n.
Arguments iterations : simpl never.

(** [[]rune(s)] for a string literal of ASCII characters. *)
Definition runes (s : string) : list rune :=
  (fun a => Z.of_nat (Ascii.nat_of_ascii a)) <$> list_ascii_of_string s.

(** ** Errors and outcomes *)

(** Go's [error] values as far as the package can tell them apart:
    [InvalidLengthErr] and [NoCharactersErr] are its two exported error
    variables, [RandomErr] is every other error value (of crypto/rand, of
    math/big or of a custom [Random]).  An implementation of [Random] may
    return any of them, the two exported variables included. *)
Inductive error :=
| InvalidLengthErr
| NoCharactersErr
| RandomErr (msg : string).

Inductive result (A : Type) :=
| Returns (a : A)
| Panics.
Arguments Returns {A} a.
Arguments Panics {A}.

(** ** The Random interface *)

(** What an implementation of [Get(max uint) (uint, error)] does on a
    receiver of type [T]: it returns a number and an error (or panics) and
    leaves the receiver in a new state. *)
Class Random (T : Type) := Get : T -> uint -> result (uint * option error) * T.

(** One call of [Get] as seen from outside: the bound passed and the answer. *)
Record call := Call { bound : uint; answer : result (uint * option error) }.

(** An interface value of type [Random]: a dynamic type with its method, the
    current value, and (ghost) the calls made on it so far. *)
Record RandomValue := Iface {
  dyn : Type;
  dyn_Random : Random dyn;
  self : dyn;
  calls : list call
}.
Arguments Iface {dyn dyn_Random} self calls.

(** The answer of an implementation as the caller sees it: the number
    returned is a [uint] whatever the implementation computes. *)
Definition seen (a : result (uint * option error)) : result (uint * option error) :=
  match a with
  | Returns (k, err) => Returns (wrap k, err)
  | Panics => Panics
  end.

(** [r.Get(max)] on an interface value.  The error, if any, is the
    provider's own and reaches the caller as it is. *)
Definition callGet (r : RandomValue) (max : uint)
  : result (uint * option error) * RandomValue :=
  let '(a, s) := @Get (dyn r) (dyn_Random r) (self r) max in
  (seen a, @Iface (dyn r) (dyn_Random r) s (calls r ++ [Call max (seen a)])).

(** *** The default provider [random{}]

    [crypto/rand.Int(rand.Reader, b)] belongs to Go's standard library: it
    panics when [b <= 0], returns the reader's error when reading fails, and
    otherwise a number in [0, b).  The reader is a sequence of raw draws,
    [None] being a failed read, and a position in it. *)
Record Reader := mkReader { draws : nat -> option Z; pos : nat }.

Definition rand_Int (rd : Reader) (b : Z) : result (Z * option error) * Reader :=
  if b <=? 0 then (Panics, rd)
  else
    match draws rd (pos rd) with
    | None => (Returns (0, Some (RandomErr "crypto/rand: read failed")),
               mkReader (draws rd) (S (pos rd)))
    | Some v => (Returns (v mod b, None), mkReader (draws rd) (S (pos rd)))
    end.

(** [int64(max)] for a [uint]. *)
Definition int64_of_uint (x : uint) : Z :=
  if x <? 2 ^ 63 then x else x - uint_size.

(** [func (r random) Get(max uint) (uint, error)] *)
Definition random_Get (rd : Reader) (max : uint) : result (uint * option error) * Reader :=
  let b := int64_of_uint max in
  match rand_Int rd b with
  | (Panics, rd') => (Panics, rd')
  | (Returns (nInt, Some err), rd') => (Returns (0, Some err), rd')
  | (Returns (nInt, None), rd') => (Returns (wrap nInt, None), rd')
  end.

#[export] Instance random : Random Reader := random_Get.

(** *** Providers for tests

    [script]: answers are read off a list, whatever the bound; when the list
    is used up the provider fails. *)
Definition script := list (result (uint * option error)).

Definition script_Get (s : script) (max : uint) : result (uint * option error) * script :=
  match s with
  | [] => (Returns (0, Some (RandomErr "script exhausted")), [])
  | a :: s' => (a, s')
  end.

#[export] Instance script_Random : Random script := script_Get.

(** The script that answers the numbers [ks], one after the other and
    without error. *)
Definition scripted (ks : list uint) : script :=
  (fun k => Returns (k, None)) <$> ks.

(** [counter]: the n-th call answers [n mod max]; it panics on a bound that
    is not positive, as [random{}] does. *)
Record counter := Counter { count : Z }.

Definition counter_Get (c : counter) (max : uint) : result (uint * option error) * counter :=
  if 0 <? max then (Returns (count c mod max, None), Counter (count c + 1))
  else (Panics, c).

#[export] Instance counter_Random : Random counter := counter_Get.

(** ** Character sets and the generator *)

Record charSet := mkCharSet {
  set : list rune;  (* a set of characters *)
  cmin : uint       (* the minimum number of characters from this set *)
}.

Record generator := mkGenerator {
  charsets : list charSet;
  gmin : uint;          (* field [min]: minimum length of a password *)
  num : uint;           (* max length of a password *)
  random_ : RandomValue (* field [random] *)
}.

Definition set_random (g : generator) (r : RandomValue) : generator :=
  mkGenerator (charsets g) (gmin g) (num g) r.

Definition LowerCaseAlphabet : list rune := runes "abcdefghijklmnopqrstuvwxyz".
Definition UpperCaseAlphabet : list rune := runes "ABCDEFGHIJKLMNOPQRSTUVWXYZ".
Definition Digits : list rune := runes "0123456789".

(** ** Options and NewGenerator *)

(** An option is a function that updates the generator under construction. *)
Definition Options := generator -> generator.

Definition WithRandom (r : RandomValue) : Options :=
  fun g => set_random g r.

Definition WithCharacters (set : list rune) (min : uint) : Options :=
  fun g =>
    mkGenerator (charsets g ++ [mkCharSet set min])
                (wrap (gmin g + min))
                (wrap (num g + len set))
                (random_ g).

(** The type [generator] is not exported, so a caller can only obtain
    [Options] from the two functions above: a directive names which one. *)
Inductive directive :=
| UseCharacters (set : list rune) (min : uint)
| UseRandom (r : RandomValue).

Definition option_of (d : directive) : Options :=
  match d with
  | UseCharacters set min => WithCharacters set min
  | UseRandom r => WithRandom r
  end.

(** *** A platform for the examples

    On linux/amd64 the runtime allocates at most 2^48 bytes at once, that is
    2^46 runes; the reader below never fails, [dryReader n] fails from its
    [n]-th read on. *)
Definition maxLen_amd64 : Z := 2 ^ 46.

Definition steadyReader : Reader := mkReader (fun n => Some (Z.of_nat n * 7919)) 0.

Definition dryReader (n : nat) : Reader :=
  mkReader (fun i => if (i <? n)%nat then Some 0 else None) 0.

(** Directives for the examples: 2^32 directives that each register the
    same 2^32 characters, and a set of digits followed by an empty set with
    minimum 1. *)
Definition overflowDirectives : list directive :=
  replicate (Z.to_nat (2 ^ 32)) (UseCharacters (replicate (Z.to_nat (2 ^ 32)) 97) 0).

Definition emptySetDirectives (m : uint) : list directive :=
  [UseCharacters Digits m; UseCharacters [] 1].

(** A generator whose only set has minimum 0. *)
Definition digitsDirectives : list directive := [UseCharacters Digits 0].

(** The digits registered twice, each time with the minimum 2^63. *)
Definition hugeMinimumDirectives : list directive :=
  [UseCharacters Digits (2 ^ 63); UseCharacters Digits (2 ^ 63)].

(** ** The generator *)

Section Generator.

(** The longest slice of runes the runtime allocates ([make] and [append]
    panic beyond it), and the reader behind [crypto/rand]: both belong to the
    platform the program runs on. *)
Variable maxLen : Z.
Variable rand_Reader : Reader.

(** [make([]rune, n)] *)
Definition make_len (n : uint) : result (list rune) :=
  if maxLen <? n then Panics else Returns (replicate (Z.to_nat n) 0).

(** [make([]rune, 0, n)] *)
Definition make_cap (n : uint) : result (list rune) :=
  if maxLen <? n then Panics else Returns [].

(** [append(s, t...)]: beyond the capacity the runtime allocates anew, and
    panics when it cannot; that the new capacity is rounded up is left
    out. *)
Definition append (s t : list rune) : result (list rune) :=
  if maxLen <? len s + len t then Panics else Returns (s ++ t).

(** [s[k]] *)
Definition index (s : list rune) (k : uint) : result rune :=
  match s !! Z.to_nat k with
  | Some c => Returns c
  | None => Panics
  end.

Definition NewGenerator (opts : list Options) : option generator * option error :=
  let g := foldl (fun g o => o g) (mkGenerator [] 0 0 (Iface rand_Reader [])) opts in
  if num g =? 0 then (None, Some NoCharactersErr)
  else (Some g, None).

Definition getRandomLength (g : generator) (min max : uint)
  : result (uint * option error) * generator :=
  if (max <? min) || (max <? gmin g) then (Returns (0, Some InvalidLengthErr), g)
  else
    let min := if min <? gmin g then gmin g else min in
    let '(a, r) := callGet (random_ g) (wrap (max - min + 1)) in
    let g := set_random g r in
    match a with
    | Panics => (Panics, g)
    | Returns (length, Some err) => (Returns (0, Some err), g)
    | Returns (length, None) => (Returns (wrap (length + min), None), g)
    end.

(** The loop of the function [getRandomChars]: [rem] iterations are left,
    [i] is the loop variable. *)
Fixpoint getRandomChars_loop (rem : nat) (i : uint) (r : RandomValue)
    (from : list rune) (l : uint) (chars : list rune)
  : result (option (list rune) * option error) * RandomValue :=
  match rem with
  | O => (Returns (Some chars, None), r)
  | S rem' =>
    let '(a, r) := callGet r l in
    match a with
    | Panics => (Panics, r)
    | Returns (k, Some err) => (Returns (None, Some err), r)
    | Returns (k, None) =>
      match index from k with
      | Panics => (Panics, r)
      | Returns c => getRandomChars_loop rem' (i + 1) r from l (<[Z.to_nat i := c]> chars)
      end
    end
  end.

(** [func getRandomChars(r Random, from []rune, n uint) ([]rune, error)] *)
Definition getRandomChars (r : RandomValue) (from : list rune) (n : uint)
  : result (option (list rune) * option error) * RandomValue :=
  match make_len n with
  | Panics => (Panics, r)
  | Returns chars =>
    let l := len from in
    getRandomChars_loop (iterations n) 0 r from l chars
  end.

(** First loop of the method [getRandomChars]: the minimum number of
    characters from each set.  [inl chars] when the loop is left at its end,
    [inr err] when the method returns [nil, err] from inside it. *)
Fixpoint minimum_chars (cs : list charSet) (g : generator) (chars : list rune)
  : result (list rune + error) * generator :=
  match cs with
  | [] => (Returns (inl chars), g)
  | c :: cs' =>
    let '(res, r) := getRandomChars (random_ g) (set c) (cmin c) in
    let g := set_random g r in
    match res with
    | Panics => (Panics, g)
    | Returns (_, Some err) => (Returns (inr err), g)
    | Returns (newChars, None) =>
      match append chars (default [] newChars) with
      | Panics => (Panics, g)
      | Returns chars => minimum_chars cs' g chars
      end
    end
  end.

(** Inner loop of the second phase: the character at index [k] of the sets
    taken one after the other, [None] when the sets are used up before. *)
Fixpoint pick (cs : list charSet) (k : uint) : result (option rune) :=
  match cs with
  | [] => Returns None
  | c :: cs' =>
    if k <? len (set c) then
      match index (set c) k with
      | Panics => Panics
      | Returns x => Returns (Some x)
      end
    else pick cs' (wrap (k - len (set c)))
  end.

(** Second loop of the method [getRandomChars]: the rest of the characters,
    from all the sets. *)
Fixpoint fill_loop (rem : nat) (g : generator) (chars : list rune)
  : result (option (list rune) * option error) * generator :=
  match rem with
  | O => (Returns (Some chars, None), g)
  | S rem' =>
    let '(a, r) := callGet (random_ g) (num g) in
    let g := set_random g r in
    match a with
    | Panics => (Panics, g)
    | Returns (k, Some err) => (Returns (None, Some err), g)
    | Returns (k, None) =>
      match pick (charsets g) k with
      | Panics => (Panics, g)
      | Returns None => fill_loop rem' g chars
      | Returns (Some c) =>
        match append chars [c] with
        | Panics => (Panics, g)
        | Returns chars => fill_loop rem' g chars
        end
      end
    end
  end.

(** [func (g *generator) getRandomChars(n uint) ([]rune, error)] *)
Definition generator_getRandomChars (g : generator) (n : uint)
  : result (option (list rune) * option error) * generator :=
  match make_cap n with
  | Panics => (Panics, g)
  | Returns chars =>
    match minimum_chars (charsets g) g chars with
    | (Panics, g) => (Panics, g)
    | (Returns (inr err), g) => (Returns (None, Some err), g)
    | (Returns (inl chars), g) => fill_loop (iterations (wrap (n - gmin g))) g chars
    end
  end.

(** The loop of [shuffle]; the two indexed reads come before the two writes. *)
Fixpoint shuffle_loop (rem : nat) (i n : uint) (r : RandomValue) (chars : list rune)
  : result (option error) * list rune * RandomValue :=
  match rem with
  | O => (Returns None, chars, r)
  | S rem' =>
    let '(a, r) := callGet r (wrap (n - i)) in
    match a with
    | Panics => (Panics, chars, r)
    | Returns (k, Some err) => (Returns (Some err), chars, r)
    | Returns (k, None) =>
      match index chars (wrap (i + k)), index chars i with
      | Returns x, Returns y =>
        shuffle_loop rem' (i + 1) n r
          (<[Z.to_nat (wrap (i + k)) := y]> (<[Z.to_nat i := x]> chars))
      | _, _ => (Panics, chars, r)
      end
    end
  end.

(** [func shuffle(r Random, chars []rune) error]: the slice is changed in
    place, so its contents after the call are part of the outcome. *)
Definition shuffle (r : RandomValue) (chars : list rune)
  : result (option error) * list rune * RandomValue :=
  let n := len chars in
  shuffle_loop (iterations (wrap (n - 1))) 0 n r chars.

(** [func (g *generator) Generate(min, max uint) ([]rune, error)] *)
Definition Generate (g : generator) (min max : uint)
  : result (option (list rune) * option error) * generator :=
  match getRandomLength g min max with
  | (Panics, g) => (Panics, g)
  | (Returns (_, Some err), g) => (Returns (None, Some err), g)
  | (Returns (length, None), g) =>
    match generator_getRandomChars g length with
    | (Panics, g) => (Panics, g)
    | (Returns (_, Some err), g) => (Returns (None, Some err), g)
    | (Returns (chars, None), g) =>
      match shuffle (random_ g) (default [] chars) with
      | (Panics, _, r) => (Panics, set_random g r)
      | (Returns (Some err), _, r) => (Returns (None, Some err), set_random g r)
      | (Returns None, shuffled, r) =>
        (Returns ((fun _ => shuffled) <$> chars, None), set_random g r)
      end
    end
  end.

(** *** Fixtures: the configuration of [TestGenPassword] *)

Definition symbols : list rune :=
  runes "~!@#$%^&{}[]|\;:'" ++ [34] ++ runes ",./?*()-_=+".

Definition testDirectives (r : RandomValue) : list directive :=
  [UseRandom r; UseCharacters LowerCaseAlphabet 1; UseCharacters UpperCaseAlphabet 2;
   UseCharacters Digits 3; UseCharacters symbols 4].

(** The generator built, or an empty one when construction failed. *)
Definition built (ds : list directive) : generator :=
  default (mkGenerator [] 0 0 (Iface rand_Reader [])) (NewGenerator (option_of <$> ds)).1.

Definition testGenerator (r : RandomValue) : generator := built (testDirectives r).

(** *** The test [TestGenPassword]

    The options of the test, without [WithRandom]; the four counters of its
    loop over a password (Go's [int] counters of at most [len(p)], which do
    not overflow), and the switch that feeds them. *)
Definition testOptions : list directive :=
  [UseCharacters LowerCaseAlphabet 1; UseCharacters UpperCaseAlphabet 2;
   UseCharacters Digits 3; UseCharacters symbols 4].

Record tally := Tally { numLower : Z; numUpper : Z; numDigits : Z; numSpecial : Z }.

Definition classify (t : tally) (c : rune) : tally :=
  if (97 <=? c) && (c <=? 122) then
    Tally (numLower t + 1) (numUpper t) (numDigits t) (numSpecial t)
  else if (65 <=? c) && (c <=? 90) then
    Tally (numLower t) (numUpper t + 1) (numDigits t) (numSpecial t)
  else if (48 <=? c) && (c <=? 57) then
    Tally (numLower t) (numUpper t) (numDigits t + 1) (numSpecial t)
  else
    Tally (numLower t) (numUpper t) (numDigits t) (numSpecial t + 1).

Definition countClasses (p : list rune) : tally :=
  foldl classify (Tally 0 0 0 0) p.

(** ** Specification vocabulary *)

(** The part of a generator that is its configuration. *)
Definition config (g : generator) : list charSet * uint * uint :=
  (charsets g, gmin g, num g).

(** A sequence of [Generate] calls on one generator. *)
Definition run (reqs : list (uint * uint)) (g : generator) : generator :=
  foldl (fun g '(min, max) => (Generate g min max).2) g reqs.

(** The calls [t], made one after the other on a receiver in state [s],
    are answered as [t] records and leave the receiver in state [s']. *)
Fixpoint replays {T : Type} {I : Random T} (s : T) (t : list call) (s' : T) : Prop :=
  match t with
  | [] => s' = s
  | c :: t' =>
    exists a s1, Get s (bound c) = (a, s1) /\ answer c = seen a /\ replays s1 t' s'
  end.

(** [r'] is [r] after the calls [t]: same dynamic type and method, the
    calls [t] made and answered by that method, and logged. *)
Definition extends (r r' : RandomValue) (t : list call) : Prop :=
  exists s', r' = @Iface (dyn r) (dyn_Random r) s' (calls r ++ t) /\
             @replays (dyn r) (dyn_Random r) (self r) t s'.

(** The provider keeps to the contract of [Get]: a number it returns
    without error is below the bound. *)
Definition contract (r : RandomValue) : Prop :=
  forall (s : dyn r) (max : uint) k s',
    @Get (dyn r) (dyn_Random r) s max = (Returns (k, None), s') -> 0 <= k < max.

(** The same for a call on record. *)
Definition in_contract (c : call) : Prop :=
  forall k, answer c = Returns (k, None) -> 0 <= k < bound c.

(** The error of a call that returned an error. *)
Definition failed_call (c : call) : option error :=
  match answer c with
  | Returns (_, Some e) => Some e
  | _ => None
  end.

Definition no_errors (t : list call) : Prop :=
  Forall (fun c => failed_call c = None) t.

(** The error component of what a function returned. *)
Definition err_of {A : Type} (res : result (A * option error)) : result (option error) :=
  match res with
  | Returns (_, err) => Returns err
  | Panics => Panics
  end.

(** How the calls [t] made by a function relate to the error it returns:
    either no call returned an error and the function returns no error (or
    panics), or the last call returned an error, no call before it did,
    and the function returns just that error. *)
Definition propagates (t : list call) (err : result (option error)) : Prop :=
  (no_errors t /\ (err = Returns None \/ err = Panics)) \/
  (exists t0 c e, t = t0 ++ [c] /\ no_errors t0 /\ failed_call c = Some e /\
                  err = Returns (Some e)).

(** How many characters of [p] belong to the character sequence [set]. *)
Definition count_from (set p : list rune) : Z :=
  len (filter (fun x => x ∈ set) p).

(** The sets taken one after the other: the pool of the second phase. *)
Definition pool (cs : list charSet) : list rune :=
  concat (set <$> cs).

(** The sum of the minimums and the sum of the sizes, as numbers. *)
Definition sum_min (cs : list charSet) : Z :=
  foldr (fun c acc => cmin c + acc) 0 cs.

Definition sum_len (cs : list charSet) : Z :=
  foldr (fun c acc => len (set c) + acc) 0 cs.

(** What the first phase draws for the set [c]: [cmin c] characters of it. *)
Definition block (c : charSet) (b : list rune) : Prop :=
  length b = iterations (cmin c) /\ Forall (fun x => x ∈ set c) b.

(** The calls with bound [b] answered, without error, by the numbers [ks]. *)
Definition answered (b : uint) (ks : list uint) : list call :=
  (fun k => Call b (Returns (k, None))) <$> ks.

(** The characters of the pool at the indices [ks]. *)
Definition pool_chars (cs : list charSet) (ks : list uint) : list rune :=
  omap (fun k => pool cs !! Z.to_nat k) ks.

(** The character sets a sequence of directives registers, in order, and
    the provider it leaves in place. *)
Definition registered (ds : list directive) : list charSet :=
  omap (fun d => match d with
                 | UseCharacters s m => Some (mkCharSet s m)
                 | UseRandom _ => None
                 end) ds.

Definition provider (r0 : RandomValue) (ds : list directive) : RandomValue :=
  foldl (fun r d => match d with
                    | UseCharacters _ _ => r
                    | UseRandom r' => r'
                    end) r0 ds.

(** The two counters of a generator are the sums they stand for, as far as
    64 bits go, and every minimum is a [uint]. *)
Definition consistent (g : generator) : Prop :=
  gmin g = wrap (sum_min (charsets g)) /\
  num g = wrap (sum_len (charsets g)) /\
  Forall (fun c => is_uint (cmin c)) (charsets g).

(** Every minimum passed to [WithCharacters] is a [uint]. *)
Definition well_typed (ds : list directive) : Prop :=
  Forall (fun c => is_uint (cmin c)) (registered ds).

(** The generator that the directives [ds] describe. *)
Definition consistent_with (ds : list directive) (g : generator) : Prop :=
  charsets g = registered ds /\
  gmin g = wrap (sum_min (registered ds)) /\
  num g = wrap (sum_len (registered ds)).

(** The provider answers every positive bound without error and within the
    contract of [Get]. *)
Definition reliable (r : RandomValue) : Prop :=
  forall (s : dyn r) (max : uint), 0 < max ->
    exists k s', @Get (dyn r) (dyn_Random r) s max = (Returns (k, None), s') /\
                 0 <= k < max.

(** The shuffle in the words of the specification: one pass from left to
    right that, for the position [i] and the number [k] drawn for it, swaps
    position [i] with position [i + k].  [pass i ks chars] is the pass from
    position [i] on with the numbers [ks], and [pass_calls n i ks] are the
    draws it makes on a sequence of length [n]: the bound for position [i]
    is [n - i]. *)
Definition swap (l : list rune) (i j : nat) : list rune :=
  match l !! i, l !! j with
  | Some y, Some x => <[j:=y]> (<[i:=x]> l)
  | _, _ => l
  end.

Fixpoint pass (i : Z) (ks : list uint) (chars : list rune) : list rune :=
  match ks with
  | [] => chars
  | k :: ks' => pass (i + 1) ks' (swap chars (Z.to_nat i) (Z.to_nat (i + k)))
  end.

Fixpoint pass_calls (n i : Z) (ks : list uint) : list call :=
  match ks with
  | [] => []
  | k :: ks' => Call (n - i) (Returns (k, None)) :: pass_calls n (i + 1) ks'
  end.

(** What every function that draws guarantees about the calls it makes:
    the provider it leaves behind is the one it was given after the calls
    [t], errors are propagated, and a returned error comes with [nil]. *)
Definition draws_orderly {A : Type} (r r' : RandomValue)
    (res : result (option A * option error)) (t : list call) : Prop :=
  extends r r' t /\ propagates t (err_of res) /\
  (forall v e, res = Returns (v, Some e) -> v = None).

(** From its current state on, the provider answers every bound in (0, B)
    without error and within the contract of [Get]: there is an invariant of
    its state that holds now and that every such call keeps. *)
Definition dependable (B : Z) (r : RandomValue) : Prop :=
  exists Inv : dyn r -> Prop,
    Inv (self r) /\
    forall s max, Inv s -> 0 < max < B ->
      exists k s', @Get (dyn r) (dyn_Random r) s max = (Returns (k, None), s') /\
                   0 <= k < max /\ Inv s'.

(** The reader behind [crypto/rand] never fails. *)
Definition unfailing (rd : Reader) : Prop := forall n, draws rd n <> None.

(** A configuration in which nothing has overflowed, the pool is not empty
    and every set that must contribute has a character to give. *)
Definition sound (g : generator) : Prop :=
  gmin g = sum_min (charsets g) /\
  num g = sum_len (charsets g) /\
  0 < num g /\
  Forall (fun c => 0 <= cmin c /\ (0 < cmin c -> set c <> [])) (charsets g).

(** The bounds a successful [Generate] passes to the provider, in order,
    for a password of length [n]: the span of the lengths, for each set its
    size as often as its minimum, the pool size for each further character,
    and [n], [n-1], ..., 2 for the shuffle. *)
Definition minimum_bounds (cs : list charSet) : list uint :=
  concat ((fun c => replicate (iterations (cmin c)) (len (set c))) <$> cs).

Definition shuffle_bounds (n : Z) : list uint :=
  (fun i => n - Z.of_nat i) <$> seq 0 (iterations (n - 1)).

Definition Generate_bounds (g : generator) (min max : uint) (n : Z) : list uint :=
  [max - Z.max min (gmin g) + 1] ++ minimum_bounds (charsets g)
  ++ replicate (iterations (n - gmin g)) (num g) ++ shuffle_bounds n.

(** No [WithRandom] among the directives. *)
Definition sets_only (ds : list directive) : Prop :=
  Forall (fun d => match d with
                   | UseCharacters _ _ => True
                   | UseRandom _ => False
                   end) ds.

(** ** Basic facts *)

Lemma wrap_small x : is_uint x -> wrap x = x.
Proof. unfold is_uint, wrap. intros H. apply Z.mod_small. lia. Qed.

Lemma wrap_is_uint x : is_uint (wrap x).
Proof. unfold is_uint, wrap. apply Z.mod_pos_bound. reflexivity. Qed.

Lemma wrap_le x : 0 <= x -> wrap x <= x.
Proof. unfold wrap. intros H. apply Z.mod_le; [lia | reflexivity]. Qed.

Lemma len_nonneg {A} (s : list A) : 0 <= len s.
Proof. unfold len. lia. Qed.

Lemma len_app {A} (s t : list A) : len (s ++ t) = len s + len t.
Proof. unfold len. rewrite length_app. lia. Qed.

Lemma replays_app {T : Type} {I : Random T} (s1 s2 s3 : T) t u :
  replays s1 t s2 -> replays s2 u s3 -> replays s1 (t ++ u) s3.
Proof.
  revert s1. induction t as [|c t IH]; intros s1; simpl.
  - by intros ->.
  - intros (a & s & Hc & Ha & Ht) Hu. exists a, s. eauto.
Qed.

Lemma extends_refl r : extends r r [].
Proof. destruct r as [T I s c]. exists s. simpl. by rewrite app_nil_r. Qed.

Lemma extends_trans r1 r2 r3 t u :
  extends r1 r2 t -> extends r2 r3 u -> extends r1 r3 (t ++ u).
Proof.
  intros (s2 & -> & H2) (s3 & -> & H3). simpl in *. exists s3.
  rewrite app_assoc. eauto using replays_app.
Qed.

Lemma extends_calls r r' t : extends r r' t -> calls r' = calls r ++ t.
Proof. by intros (s' & -> & _). Qed.

Lemma extends_contract r r' t :
  contract r -> extends r r' t -> contract r' /\ Forall in_contract t.
Proof.
  intros Hc (s' & -> & Hs). split; [done|].
  destruct r as [T I s c0]. unfold contract in Hc. simpl in *.
  revert s Hs. induction t as [|c t IH]; intros s; simpl; [constructor|].
  intros (a & s1 & Hget & Ha & Ht). constructor; [|by eapply IH].
  intros k Hk. rewrite Ha in Hk. destruct a as [[k0 [e|]]|]; simpl in Hk; try done.
  injection Hk as <-. apply Hc in Hget.
  pose proof (wrap_le k0). pose proof (wrap_is_uint k0) as [? _]. lia.
Qed.

(** *** The configuration is never written *)

Lemma getRandomLength_config g min max :
  config (getRandomLength g min max).2 = config g.
Proof.
  unfold getRandomLength.
  destruct (_ || _); [done|].
  destruct (callGet _ _) as [[[k [e|]]|] r]; done.
Qed.

Lemma minimum_chars_config cs g chars :
  config (minimum_chars cs g chars).2 = config g.
Proof.
  revert g chars. induction cs as [|c cs IH]; intros g chars; simpl; [done|].
  destruct (getRandomChars _ _ _) as [[[new [e|]]|] r]; try done.
  destruct (append _ _); [|done].
  by rewrite IH.
Qed.

Lemma fill_loop_config rem g chars :
  config (fill_loop rem g chars).2 = config g.
Proof.
  revert g chars. induction rem as [|rem IH]; intros g chars; simpl; [done|].
  destruct (callGet _ _) as [[[k [e|]]|] r]; try done. simpl.
  destruct (pick _ _) as [[c|]|]; try done.
  - destruct (append _ _); [|done]. by rewrite IH.
  - by rewrite IH.
Qed.

Lemma generator_getRandomChars_config g n :
  config (generator_getRandomChars g n).2 = config g.
Proof.
  unfold generator_getRandomChars. destruct (make_cap n); [|done].
  pose proof (minimum_chars_config (charsets g) g a) as H.
  destruct (minimum_chars _ _ _) as [[[chars|e]|] g1]; simpl in H; try done.
  rewrite fill_loop_config. done.
Qed.

Lemma Generate_config g min max :
  config (Generate g min max).2 = config g.
Proof.
  unfold Generate.
  pose proof (getRandomLength_config g min max) as H1.
  destruct (getRandomLength _ _ _) as [[[n [e|]]|] g1]; simpl in H1; try done.
  pose proof (generator_getRandomChars_config g1 n) as H2.
  destruct (generator_getRandomChars _ _) as [[[chars [e|]]|] g2]; simpl in *;
    try congruence.
  destruct (shuffle _ _) as [[[[e|]|] shuffled] r]; unfold config in *; simpl; congruence.
Qed.

(** *** Calls and errors *)

Lemma callGet_spec r max a r' :
  callGet r max = (a, r') ->
  exists c, extends r r' [c] /\ bound c = max /\
    match a with
    | Panics => answer c = Panics
    | Returns (k, e) => exists m, answer c = Returns (k, m) /\ e = m /\ is_uint k
    end.
Proof.
  unfold callGet. destruct (Get (self r) max) as [a0 s] eqn:E.
  intros [= <- <-]. eexists (Call max _). split; [|split; [done|]].
  - exists s. split; [done|]. simpl. by exists a0, s.
  - destruct a0 as [[k m]|]; simpl; [|done]. exists m. auto using wrap_is_uint.
Qed.

Lemma propagates_nil : propagates [] (Returns None).
Proof. left. split; [constructor | by left]. Qed.

Lemma propagates_panic_nil : propagates [] Panics.
Proof. left. split; [constructor | by right]. Qed.

Lemma propagates_error c msg :
  failed_call c = Some msg -> propagates [c] (Returns (Some msg)).
Proof. intros H. right. exists [], c, msg. repeat split; [constructor | done]. Qed.

Lemma propagates_panic c : answer c = Panics -> propagates [c] Panics.
Proof.
  intros H. left. split; [|by right].
  constructor; [|constructor]. unfold failed_call. by rewrite H.
Qed.

Lemma propagates_app t u err :
  no_errors t -> propagates u err -> propagates (t ++ u) err.
Proof.
  intros Ht [[Hu He]|(u0 & c & msg & -> & Hu0 & Hc & ->)].
  - left. split; [by apply Forall_app | done].
  - right. exists (t ++ u0), c, msg. rewrite app_assoc.
    repeat split; [by apply Forall_app | done].
Qed.

Lemma propagates_cons c k u err :
  answer c = Returns (k, None) -> propagates u err -> propagates (c :: u) err.
Proof.
  intros Hc Hu. apply (propagates_app [c]); [|done].
  constructor; [|constructor]. unfold failed_call. by rewrite Hc.
Qed.

Lemma propagates_success t : propagates t (Returns None) -> no_errors t.
Proof. intros [[H _]|(?&?&?&?&?&?&?)]; [done | discriminate]. Qed.

Ltac step_call :=
  let a := fresh "a" in let r := fresh "r" in let E := fresh "Ecall" in
  let c := fresh "c" in let Hext := fresh "Hext" in
  let Hb := fresh "Hbound" in let Ha := fresh "Hanswer" in
  match goal with
  | H : context [callGet ?r0 ?m] |- _ =>
    destruct (callGet r0 m) as [a r] eqn:E;
    destruct (callGet_spec _ _ _ _ E) as (c & Hext & Hb & Ha)
  end.

Lemma getRandomChars_loop_orderly rem i r from l chars res r' :
  getRandomChars_loop rem i r from l chars = (res, r') ->
  exists t, draws_orderly r r' res t /\ Forall (fun c => bound c = l) t.
Proof.
  revert i r chars. induction rem as [|rem IH]; intros i r chars; simpl; intros H.
  - injection H as <- <-. exists []. repeat split; auto using extends_refl, propagates_nil.
    intros v e [=].
  - step_call. destruct a as [[k [e|]]|].
    + injection H as <- <-. destruct Hanswer as (m & Hm & He & _).
      destruct m as [msg|]; [|done]. injection He as ->.
      exists [c]. repeat split; auto.
      * apply propagates_error. unfold failed_call. by rewrite Hm.
      * by intros v e [= <- _].
    + destruct Hanswer as (m & Hm & He & _). destruct m; [done|].
      destruct (index from k) as [x|].
      * apply IH in H as (t & (Ht & Hp & Hnil) & Hb).
        exists ([c] ++ t). repeat split; auto.
        -- eapply extends_trans; eauto.
        -- eapply propagates_cons; eauto.
        -- by constructor.
      * injection H as <- <-. exists [c]. repeat split; auto.
        -- left. split; [|by right]. constructor; [|constructor].
           unfold failed_call. by rewrite Hm.
        -- intros v e [=].
    + injection H as <- <-. exists [c]. repeat split; auto.
      * by apply propagates_panic.
      * intros v e [=].
Qed.

Lemma getRandomChars_orderly r from n res r' :
  getRandomChars r from n = (res, r') ->
  exists t, draws_orderly r r' res t /\ Forall (fun c => bound c = len from) t.
Proof.
  unfold getRandomChars. destruct (make_len n).
  - apply getRandomChars_loop_orderly.
  - intros [= <- <-]. exists []. repeat split; auto using extends_refl, propagates_panic_nil.
    intros v e [=].
Qed.

Lemma minimum_chars_orderly cs g chars res g' :
  minimum_chars cs g chars = (res, g') ->
  exists t, extends (random_ g) (random_ g') t /\
    propagates t (match res with
                  | Returns (inl _) => Returns None
                  | Returns (inr e) => Returns (Some e)
                  | Panics => Panics
                  end).
Proof.
  revert g chars. induction cs as [|c cs IH]; intros g chars; simpl; intros H.
  - injection H as <- <-. exists []. auto using extends_refl, propagates_nil.
  - destruct (getRandomChars _ _ _) as [res1 r1] eqn:E1.
    apply getRandomChars_orderly in E1 as (t1 & (Hext1 & Hp1 & Hnil1) & _).
    destruct res1 as [[new [e|]]|]; simpl in Hp1.
    + injection H as <- <-. by exists t1.
    + destruct (append _ _).
      * apply IH in H as (t2 & Hext2 & Hp2). exists (t1 ++ t2). split.
        -- eapply extends_trans; eauto.
        -- apply propagates_app; [by apply propagates_success | done].
      * injection H as <- <-. exists t1. split; [done|].
        left. split; [by apply propagates_success | by right].
    + injection H as <- <-. by exists t1.
Qed.

Lemma fill_loop_orderly rem g chars res g' :
  fill_loop rem g chars = (res, g') ->
  exists t, draws_orderly (random_ g) (random_ g') res t /\
            Forall (fun c => bound c = num g) t.
Proof.
  revert g chars. induction rem as [|rem IH]; intros g chars; simpl; intros H.
  - injection H as <- <-. exists []. repeat split; auto using extends_refl, propagates_nil.
    intros v e [=].
  - step_call. destruct a as [[k [e|]]|].
    + injection H as <- <-. destruct Hanswer as (m & Hm & He & _).
      destruct m as [msg|]; [|done]. injection He as ->.
      exists [c]. repeat split; auto.
      * apply propagates_error. unfold failed_call. by rewrite Hm.
      * by intros v e [= <- _].
    + destruct Hanswer as (m & Hm & He & _). destruct m; [done|].
      assert (Hpanic : draws_orderly (A:=list rune) (random_ g) r Panics [c]
                       /\ Forall (fun c => bound c = num g) [c]).
      { repeat split; auto.
        - left. split; [|by right]. constructor; [|constructor].
          unfold failed_call. by rewrite Hm.
        - intros v e [=]. }
      simpl in H.
      assert (Hnext : forall chars0, fill_loop rem (set_random g r) chars0 = (res, g') ->
        exists t, draws_orderly (random_ g) (random_ g') res t /\
                  Forall (fun c => bound c = num g) t).
      { intros chars0 H0. apply IH in H0 as (t & (Ht & Hp & Hnil) & Hb).
        exists ([c] ++ t). repeat split; auto.
        - eapply extends_trans; eauto.
        - eapply propagates_cons; eauto.
        - by constructor. }
      destruct (pick _ _) as [[x|]|].
      * destruct (append _ _); [by eapply Hnext|].
        injection H as <- <-. by exists [c].
      * by eapply Hnext.
      * injection H as <- <-. by exists [c].
    + injection H as <- <-. exists [c]. repeat split; auto.
      * by apply propagates_panic.
      * intros v e [=].
Qed.

Lemma generator_getRandomChars_orderly g n res g' :
  generator_getRandomChars g n = (res, g') ->
  exists t, draws_orderly (random_ g) (random_ g') res t.
Proof.
  unfold generator_getRandomChars. destruct (make_cap n) as [chars|].
  - destruct (minimum_chars _ _ _) as [res1 g1] eqn:E1.
    pose proof (minimum_chars_config (charsets g) g chars) as Hc.
    rewrite E1 in Hc.
    apply minimum_chars_orderly in E1 as (t1 & Hext1 & Hp1).
    destruct res1 as [[chars1|e]|].
    + intros H. apply fill_loop_orderly in H as (t2 & (Hext2 & Hp2 & Hnil2) & _).
      exists (t1 ++ t2). repeat split; auto.
      * eapply extends_trans; eauto.
      * apply propagates_app; [by apply propagates_success | done].
    + intros [= <- <-]. exists t1. repeat split; auto. by intros v e0 [= <- _].
    + intros [= <- <-]. exists t1. repeat split; auto. intros v e0 [=].
  - intros [= <- <-]. exists []. repeat split; auto using extends_refl, propagates_panic_nil.
    intros v e [=].
Qed.

Lemma shuffle_loop_orderly rem i n r chars res chars' r' :
  shuffle_loop rem i n r chars = (res, chars', r') ->
  exists t, extends r r' t /\ propagates t res.
Proof.
  revert i r chars. induction rem as [|rem IH]; intros i r chars; simpl; intros H.
  - injection H as <- <- <-. exists []. auto using extends_refl, propagates_nil.
  - step_call. destruct a as [[k [e|]]|].
    + injection H as <- <- <-. destruct Hanswer as (m & Hm & He & _).
      destruct m as [msg|]; [|done]. injection He as ->.
      exists [c]. split; [done|]. apply propagates_error. unfold failed_call. by rewrite Hm.
    + destruct Hanswer as (m & Hm & He & _). destruct m; [done|].
      assert (Hpanic : propagates [c] Panics).
      { left. split; [|by right]. constructor; [|constructor].
        unfold failed_call. by rewrite Hm. }
      destruct (index chars (wrap (i + k))) as [x|]; [destruct (index chars i) as [y|]|].
      * apply IH in H as (t & Ht & Hp). exists ([c] ++ t). split.
        -- eapply extends_trans; eauto.
        -- eapply propagates_cons; eauto.
      * injection H as <- <- <-. by exists [c].
      * injection H as <- <- <-. by exists [c].
    + injection H as <- <- <-. exists [c]. split; [done|]. by apply propagates_panic.
Qed.

Lemma shuffle_orderly r chars res chars' r' :
  shuffle r chars = (res, chars', r') ->
  exists t, extends r r' t /\ propagates t res.
Proof. apply shuffle_loop_orderly. Qed.

(** *** Length selection *)

Lemma getRandomLength_invalid g min max :
  max < min \/ max < gmin g ->
  getRandomLength g min max = (Returns (0, Some InvalidLengthErr), g).
Proof.
  intros H. unfold getRandomLength.
  assert ((max <? min) || (max <? gmin g) = true) as ->; [|done].
  apply orb_true_iff. lia.
Qed.

Lemma getRandomLength_valid g min max res g' :
  ~ (max < min \/ max < gmin g) ->
  getRandomLength g min max = (res, g') ->
  exists c, extends (random_ g) (random_ g') [c] /\
    bound c = wrap (max - Z.max min (gmin g) + 1) /\
    propagates [c] (err_of res) /\
    (forall n e, res = Returns (n, Some e) -> n = 0) /\
    (forall n, res = Returns (n, None) ->
       exists d, answer c = Returns (d, None) /\ is_uint d /\
                 n = wrap (d + Z.max min (gmin g))).
Proof.
  intros Hv. unfold getRandomLength.
  assert ((max <? min) || (max <? gmin g) = false) as ->.
  { apply orb_false_iff. lia. }
  assert ((if min <? gmin g then gmin g else min) = Z.max min (gmin g)) as ->.
  { destruct (Z.ltb_spec min (gmin g)); lia. }
  intros H. step_call. exists c. split; [|split; [done|]].
  { by destruct a as [[k [e|]]|]; injection H as <- <-. }
  destruct a as [[k [e|]]|]; injection H as <- <-; simpl.
  - destruct Hanswer as (m & Hm & He & _). destruct m as [msg|]; [|done].
    injection He as ->. repeat split.
    + apply propagates_error. unfold failed_call. by rewrite Hm.
    + by intros n e [= <- _].
    + intros n [=].
  - destruct Hanswer as (m & Hm & He & Hk). destruct m; [done|]. repeat split.
    + eapply propagates_cons; eauto using propagates_nil.
    + intros n e [=].
    + intros n [= <-]. by exists k.
  - repeat split.
    + by apply propagates_panic.
    + intros n e [=].
    + intros n [=].
Qed.

(** With no minimum to meet, the span of the full range [0, 2^64 - 1] is
    2^64: the bound passed to the provider wraps around to 0. *)
Lemma getRandomLength_full_range g :
  gmin g = 0 ->
  getRandomLength g 0 (2 ^ 64 - 1) =
  let '(a, r) := callGet (random_ g) 0 in
  (match a with
   | Panics => Panics
   | Returns (_, Some err) => Returns (0, Some err)
   | Returns (length, None) => Returns (wrap (length + 0), None)
   end, set_random g r).
Proof.
  intros Hg. unfold getRandomLength. rewrite Hg. simpl.
  change (wrap (2 ^ 64 - 1 - 0 + 1)) with 0.
  by destruct (callGet (random_ g) 0) as [[[k [e|]]|] r].
Qed.

(** *** Generate, seen from the provider *)

Lemma Generate_invalid g min max :
  max < min \/ max < gmin g ->
  Generate g min max = (Returns (None, Some InvalidLengthErr), g).
Proof. intros H. unfold Generate. by rewrite getRandomLength_invalid. Qed.

Ltac orderly :=
  repeat split; auto;
  solve [ by apply propagates_app
        | by intros ? ? [= <- _]
        | intros ? ? [=] ].

Lemma Generate_valid_orderly g min max res g' :
  ~ (max < min \/ max < gmin g) ->
  Generate g min max = (res, g') ->
  exists t, draws_orderly (random_ g) (random_ g') res t.
Proof.
  intros Hv. unfold Generate.
  destruct (getRandomLength g min max) as [res1 g1] eqn:E1.
  apply getRandomLength_valid in E1 as (c & Hext1 & _ & Hp1 & _ & _); [|done].
  destruct res1 as [[n [e|]]|]; simpl in Hp1.
  - intros [= <- <-]. exists [c]. orderly.
  - destruct (generator_getRandomChars g1 n) as [res2 g2] eqn:E2.
    apply generator_getRandomChars_orderly in E2 as (t2 & Hext2 & Hp2 & Hnil2).
    assert (Hext12 : extends (random_ g) (random_ g2) ([c] ++ t2)).
    { eapply extends_trans; eauto. }
    assert (Hno1 : no_errors [c]) by by apply propagates_success.
    destruct res2 as [[chars [e|]]|]; simpl in Hp2.
    + intros [= <- <-]. exists ([c] ++ t2). orderly.
    + destruct (shuffle _ _) as [[res3 shuffled] r3] eqn:E3.
      apply shuffle_orderly in E3 as (t3 & Hext3 & Hp3).
      assert (Hno2 : no_errors ([c] ++ t2)).
      { apply Forall_app. split; [done | by apply propagates_success]. }
      intros H. exists (([c] ++ t2) ++ t3).
      assert (Hext : extends (random_ g) r3 (([c] ++ t2) ++ t3)).
      { eapply extends_trans; eauto. }
      destruct res3 as [[e|]|]; injection H as <- <-; orderly.
    + intros [= <- <-]. exists ([c] ++ t2). orderly.
  - intros [= <- <-]. exists [c]. orderly.
Qed.

(** *** What the first phase returns *)

Lemma index_Returns s k x : index s k = Returns x -> s !! Z.to_nat k = Some x.
Proof. unfold index. destruct (s !! Z.to_nat k); [|done]. by intros [= ->]. Qed.

Lemma getRandomChars_loop_success rem i r from l chars cs r' :
  getRandomChars_loop rem i r from l chars = (Returns (Some cs, None), r') ->
  0 <= i -> (Z.to_nat i + rem <= length chars)%nat ->
  exists new, cs = take (Z.to_nat i) chars ++ new ++ drop (Z.to_nat i + rem) chars /\
              length new = rem /\ Forall (fun x => x ∈ from) new.
Proof.
  revert i r chars. induction rem as [|rem IH]; intros i r chars; simpl; intros H Hi Hlen.
  - injection H as <- <-. exists []. rewrite Nat.add_0_r, app_nil_l, take_drop. auto.
  - destruct (callGet r l) as [[[k [e|]]|] r1]; try done.
    destruct (index from k) as [x|] eqn:Ex; [|done].
    apply index_Returns in Ex.
    apply IH in H as (new & -> & Hn & Hall); [|lia|rewrite length_insert; lia].
    exists (x :: new). replace (Z.to_nat (i + 1)) with (S (Z.to_nat i)) by lia.
    split; [|split].
    + erewrite take_S_r; [|apply list_lookup_insert_eq; lia].
      rewrite take_insert_ge by lia. rewrite drop_insert_lt by lia.
      rewrite <- app_assoc. simpl. repeat f_equal. lia.
    + simpl. by rewrite Hn.
    + constructor; [|done]. by eapply list_elem_of_lookup_2.
Qed.

Lemma getRandomChars_loop_not_nil rem i r from l chars e r' :
  getRandomChars_loop rem i r from l chars <> (Returns (None, e), r') \/ e <> None.
Proof.
  destruct e; [by right | left].
  revert i r chars. induction rem as [|rem IH]; intros i r chars; simpl; [done|].
  destruct (callGet r l) as [[[k [e|]]|] r1]; try done.
  destruct (index from k); [apply IH | done].
Qed.

Lemma getRandomChars_success r from n res r' :
  getRandomChars r from n = (Returns (res, None), r') ->
  exists b, res = Some b /\ length b = iterations n /\ Forall (fun x => x ∈ from) b /\
            n <= maxLen.
Proof.
  unfold getRandomChars, make_len. destruct (Z.ltb_spec maxLen n) as [|Hn0]; [done|].
  intros H. destruct res as [b|].
  - apply getRandomChars_loop_success in H as (new & -> & Hn & Hall);
      [|done|rewrite length_replicate; unfold iterations; simpl; lia].
    eexists. split; [done|]. simpl.
    rewrite drop_ge, app_nil_r by (rewrite length_replicate; unfold iterations; lia).
    auto.
  - by destruct (getRandomChars_loop_not_nil (iterations n) 0 r from (len from)
                   (replicate (Z.to_nat n) 0) None r').
Qed.

Lemma minimum_chars_success cs g chars chars' g' :
  minimum_chars cs g chars = (Returns (inl chars'), g') ->
  exists bs, Forall2 block cs bs /\ chars' = chars ++ concat bs /\
             (cs <> [] -> len chars' <= maxLen).
Proof.
  revert g chars. induction cs as [|c cs IH]; intros g chars; simpl; intros H.
  - injection H as <- <-. exists []. rewrite app_nil_r. repeat split; [constructor|done].
  - destruct (getRandomChars _ _ _) as [[[new [e|]]|] r1] eqn:E1; try done.
    apply getRandomChars_success in E1 as (b & -> & Hb1 & Hb2 & _). simpl in H.
    unfold append in H. destruct (Z.ltb_spec maxLen (len chars + len b)) as [|Hfit]; [done|].
    apply IH in H as (bs & Hbs & -> & Hmax).
    exists (b :: bs). split; [|split].
    + by constructor.
    + simpl. by rewrite app_assoc.
    + intros _. destruct cs as [|c' cs]; [|by apply Hmax].
      inversion Hbs; subst. simpl. rewrite app_nil_r, len_app. lia.
Qed.

(** *** What the second phase returns *)

Lemma pool_cons c cs : pool (c :: cs) = set c ++ pool cs.
Proof. done. Qed.

Lemma pick_pool cs k :
  is_uint k -> pick cs k = Returns (pool cs !! Z.to_nat k).
Proof.
  revert k. induction cs as [|c cs IH]; intros k Hk; simpl; [done|].
  rewrite pool_cons. unfold is_uint in Hk.
  destruct (Z.ltb_spec k (len (set c))) as [Hlt|Hge].
  - unfold index, len in *.
    destruct (lookup_lt_is_Some_2 (set c) (Z.to_nat k)) as [x Hx]; [lia|].
    rewrite Hx. by erewrite lookup_app_l_Some.
  - unfold len in Hge. rewrite wrap_small by (unfold is_uint, len; lia).
    rewrite IH by (unfold is_uint, len; lia).
    rewrite lookup_app_r by lia. do 2 f_equal. unfold len. lia.
Qed.

Lemma call_eta c b a : bound c = b -> answer c = a -> c = Call b a.
Proof. destruct c. simpl. by intros -> ->. Qed.

Lemma fill_loop_success rem g chars res g' :
  fill_loop rem g chars = (Returns (res, None), g') ->
  exists ks, length ks = rem /\ Forall is_uint ks /\
    extends (random_ g) (random_ g') (answered (num g) ks) /\
    res = Some (chars ++ pool_chars (charsets g) ks).
Proof.
  revert g chars. induction rem as [|rem IH]; intros g chars; simpl; intros H.
  - injection H as <- <-. exists []. unfold pool_chars. simpl. rewrite app_nil_r.
    auto using extends_refl.
  - step_call. destruct a as [[k [e|]]|]; try done.
    destruct Hanswer as (m & Hm & He & Hk). destruct m; [done|].
    apply (call_eta _ _ _ Hbound) in Hm. subst c.
    rewrite pick_pool in H by done. simpl in H.
    assert (Hnext : forall chars0,
      fill_loop rem (set_random g r) chars0 = (Returns (res, None), g') ->
      exists ks, length ks = rem /\ Forall is_uint ks /\
        extends (random_ g) (random_ g') (answered (num g) (k :: ks)) /\
        res = Some (chars0 ++ pool_chars (charsets g) ks)).
    { intros chars0 H0. apply IH in H0 as (ks & Hlen & Hu & Hext' & ->).
      exists ks. repeat split; auto.
      change (answered ?b (k :: ks)) with ([Call b (Returns (k, None))] ++ answered b ks).
      eapply extends_trans; eauto. }
    unfold pool_chars.
    destruct (pool (charsets g) !! Z.to_nat k) as [x|] eqn:Ex.
    + unfold append in H. destruct (Z.ltb_spec maxLen (len chars + len [x])); [done|].
      apply Hnext in H as (ks & Hlen & Hu & Hext' & ->).
      exists (k :: ks). simpl. rewrite Ex, <- app_assoc. auto.
    + apply Hnext in H as (ks & Hlen & Hu & Hext' & ->).
      exists (k :: ks). simpl. rewrite Ex. auto.
Qed.

Lemma generator_getRandomChars_success g n res g' :
  generator_getRandomChars g n = (Returns (res, None), g') ->
  exists bs ks t1,
    res = Some (concat bs ++ pool_chars (charsets g) ks) /\
    extends (random_ g) (random_ g') (t1 ++ answered (num g) ks) /\
    Forall2 block (charsets g) bs /\
    length ks = iterations (wrap (n - gmin g)) /\ Forall is_uint ks /\
    n <= maxLen /\ (charsets g <> [] -> len (concat bs) <= maxLen).
Proof.
  unfold generator_getRandomChars, make_cap.
  destruct (Z.ltb_spec maxLen n) as [|Hn]; [done|].
  destruct (minimum_chars _ _ _) as [res1 g1] eqn:E1.
  pose proof (minimum_chars_config (charsets g) g []) as Hc. rewrite E1 in Hc.
  injection Hc as Hc1 Hc2 Hc3.
  destruct (minimum_chars_orderly _ _ _ _ _ E1) as (t1 & Hext1 & _).
  destruct res1 as [[chars1|e]|]; try done.
  apply minimum_chars_success in E1 as (bs & Hbs & -> & Hmax).
  intros H. apply fill_loop_success in H as (ks & Hlen & Hu & Hext2 & ->).
  exists bs, ks, t1. rewrite Hc1, Hc3 in *. rewrite Hc2 in Hlen.
  repeat split; auto.
  eapply extends_trans; eauto.
Qed.

(** *** Swapping two positions *)

Lemma insert_head_Permutation (l : list rune) j x a :
  l !! j = Some x -> x :: <[j:=a]> l ≡ₚ a :: l.
Proof.
  revert j. induction l as [|b l IH]; intros [|j]; simpl; try done.
  - intros [= ->]. apply perm_swap.
  - intros H. rewrite perm_swap, (IH _ H). apply perm_swap.
Qed.

Lemma swap_Permutation (l : list rune) i j x y :
  l !! j = Some x -> l !! i = Some y ->
  <[j:=y]> (<[i:=x]> l) ≡ₚ l.
Proof.
  revert i j. induction l as [|a l IH]; intros [|i] [|j]; simpl; try done.
  - by intros [= ->] [= ->].
  - intros Hx [= ->]. by apply insert_head_Permutation.
  - intros [= ->] Hy. by apply insert_head_Permutation.
  - intros Hx Hy. by rewrite IH.
Qed.

(** Whatever happens, [shuffle] only ever swaps. *)
Lemma shuffle_loop_Permutation rem i n r chars :
  (shuffle_loop rem i n r chars).1.2 ≡ₚ chars.
Proof.
  revert i r chars. induction rem as [|rem IH]; intros i r chars; simpl; [done|].
  destruct (callGet _ _) as [[[k [e|]]|] r1]; simpl; try done.
  destruct (index chars (wrap (i + k))) as [x|] eqn:Ex; [|done].
  destruct (index chars i) as [y|] eqn:Ey; [|done].
  apply index_Returns in Ex, Ey.
  rewrite IH. by apply swap_Permutation.
Qed.

Lemma shuffle_Permutation r chars : (shuffle r chars).1.2 ≡ₚ chars.
Proof. apply shuffle_loop_Permutation. Qed.

(** *** A successful call of Generate *)

Lemma Generate_success g min max res g' :
  Generate g min max = (Returns (res, None), g') ->
  exists d bs ks t1 t3 p,
    res = Some p /\ ~ (max < min \/ max < gmin g) /\ is_uint d /\
    extends (random_ g) (random_ g')
      ([Call (wrap (max - Z.max min (gmin g) + 1)) (Returns (d, None))]
       ++ (t1 ++ answered (num g) ks) ++ t3) /\
    Forall2 block (charsets g) bs /\
    length ks = iterations (wrap (wrap (d + Z.max min (gmin g)) - gmin g)) /\
    Forall is_uint ks /\
    p ≡ₚ concat bs ++ pool_chars (charsets g) ks /\
    wrap (d + Z.max min (gmin g)) <= maxLen /\
    (charsets g <> [] -> len (concat bs) <= maxLen) /\
    (exists g1, getRandomLength g min max
                = (Returns (wrap (d + Z.max min (gmin g)), None), g1)).
Proof.
  intros H.
  assert (Hv : ~ (max < min \/ max < gmin g)).
  { intros Hi. by rewrite (Generate_invalid _ _ _ Hi) in H. }
  unfold Generate in H.
  destruct (getRandomLength g min max) as [res1 g1] eqn:E1.
  pose proof (getRandomLength_config g min max) as Hc. rewrite E1 in Hc.
  injection Hc as Hc1 Hc2 Hc3.
  pose proof E1 as E1'.
  apply getRandomLength_valid in E1 as (c & Hext1 & Hb & _ & _ & Hn); [|done].
  destruct res1 as [[n [e|]]|]; try done.
  destruct (Hn n eq_refl) as (d & Hd & Hud & ->). clear Hn.
  apply (call_eta _ _ _ Hb) in Hd. subst c.
  destruct (generator_getRandomChars g1 _) as [res2 g2] eqn:E2.
  destruct res2 as [[chars [e|]]|]; try done.
  apply generator_getRandomChars_success in E2
    as (bs & ks & t1 & -> & Hext2 & Hbs & Hlen & Hu & Hmax & Hmax').
  simpl in H.
  destruct (shuffle _ _) as [[res3 shuffled] r3] eqn:E3.
  pose proof (shuffle_Permutation (random_ g2)
                (concat bs ++ pool_chars (charsets g1) ks)) as Hp.
  rewrite E3 in Hp. simpl in Hp.
  apply shuffle_orderly in E3 as (t3 & Hext3 & _).
  destruct res3 as [[e|]|]; try done. injection H as <- <-.
  rewrite Hc1, Hc2, Hc3 in *.
  exists d, bs, ks, t1, t3, shuffled. split_and!; eauto.
  simpl. eapply (extends_trans _ _ _ [_]); [done|]. eapply extends_trans; eauto.
Qed.

(** *** Counting the characters of a set *)

Lemma count_from_Permutation s p q : p ≡ₚ q -> count_from s p = count_from s q.
Proof. intros H. unfold count_from, len. by rewrite H. Qed.

Lemma count_from_app s p q : count_from s (p ++ q) = count_from s p + count_from s q.
Proof. unfold count_from. by rewrite filter_app, len_app. Qed.

Lemma count_from_nonneg s p : 0 <= count_from s p.
Proof. apply len_nonneg. Qed.

Lemma count_from_all s b : Forall (fun x => x ∈ s) b -> count_from s b = len b.
Proof.
  unfold count_from. induction 1 as [|x b Hx Hb IH]; [done|].
  rewrite filter_cons_True by done. unfold len in *. simpl. lia.
Qed.

Lemma count_from_empty p : count_from [] p = 0.
Proof.
  unfold count_from. induction p as [|x p IH]; [done|].
  rewrite filter_cons_False; [done|]. apply not_elem_of_nil.
Qed.

Lemma count_from_concat s b bs : b ∈ bs -> count_from s b <= count_from s (concat bs).
Proof.
  induction 1 as [b bs|b b' bs Hin IH]; simpl; rewrite count_from_app.
  - pose proof (count_from_nonneg s (concat bs)). lia.
  - pose proof (count_from_nonneg s b'). lia.
Qed.

Lemma block_of cs bs c :
  Forall2 block cs bs -> c ∈ cs -> exists b, b ∈ bs /\ block c b.
Proof.
  induction 1 as [|c' b cs bs Hb Hbs IH]; intros Hc.
  - by apply elem_of_nil in Hc.
  - apply elem_of_cons in Hc as [->|Hc].
    + exists b. split; [left | done].
    + destruct (IH Hc) as (b0 & Hin & Hb0). exists b0. split; [by right | done].
Qed.

Lemma block_count c b : block c b -> cmin c <= count_from (set c) b.
Proof.
  intros [Hlen Hall]. rewrite count_from_all by done.
  unfold len, iterations in *. lia.
Qed.

(** *** What NewGenerator builds *)

Lemma wrap_add_l a b : wrap (wrap a + b) = wrap (a + b).
Proof. unfold wrap. by rewrite Z.add_mod_idemp_l. Qed.

Lemma sum_len_app cs cs' : sum_len (cs ++ cs') = sum_len cs + sum_len cs'.
Proof. induction cs as [|c cs IH]; simpl; [done|]. rewrite IH. lia. Qed.

Lemma sum_len_nonneg cs : 0 <= sum_len cs.
Proof. induction cs as [|c cs IH]; simpl; [done|]. pose proof (len_nonneg (set c)). lia. Qed.

Lemma len_pool cs : len (pool cs) = sum_len cs.
Proof. induction cs as [|c cs IH]; [done|]. rewrite pool_cons, len_app, IH. done. Qed.

Lemma sum_len_zero cs : sum_len cs = 0 <-> Forall (fun c => set c = []) cs.
Proof.
  induction cs as [|c cs IH]; simpl; [by split; [constructor|]|].
  pose proof (len_nonneg (set c)). pose proof (sum_len_nonneg cs). split.
  - intros H1. constructor; [|apply IH; lia].
    destruct (set c); [done|]. unfold len in *. simpl in *. lia.
  - inversion 1 as [|? ? Hc Hcs]; subst. rewrite Hc. apply IH in Hcs. rewrite Hcs. done.
Qed.

Lemma foldl_options ds g0 :
  let g := foldl (fun g o => o g) g0 (option_of <$> ds) in
  charsets g = charsets g0 ++ registered ds /\
  wrap (gmin g) = wrap (gmin g0 + sum_min (registered ds)) /\
  wrap (num g) = wrap (num g0 + sum_len (registered ds)) /\
  (is_uint (gmin g0) -> is_uint (gmin g)) /\
  (is_uint (num g0) -> is_uint (num g)) /\
  random_ g = provider (random_ g0) ds.
Proof.
  revert g0. induction ds as [|[s m|r] ds IH]; intros g0.
  - simpl. rewrite app_nil_r, !Z.add_0_r. done.
  - rewrite fmap_cons. cbn [foldl option_of].
    destruct (IH (WithCharacters s m g0)) as (H1 & H2 & H3 & H4 & H5 & H6).
    revert H1 H2 H3 H4 H5 H6. generalize (foldl (fun g o => o g) (WithCharacters s m g0)
                                            (option_of <$> ds)).
    intros g H1 H2 H3 H4 H5 H6. simpl in *.
    rewrite H1, H2, H3, H6, <- app_assoc, !wrap_add_l.
    split_and!; auto using wrap_is_uint; f_equal; lia.
  - rewrite fmap_cons. cbn [foldl option_of].
    destruct (IH (WithRandom r g0)) as (H1 & H2 & H3 & H4 & H5 & H6).
    revert H1 H2 H3 H4 H5 H6. generalize (foldl (fun g o => o g) (WithRandom r g0)
                                            (option_of <$> ds)).
    intros g H1 H2 H3 H4 H5 H6. simpl in *.
    by rewrite H1, H2, H3, H6.
Qed.

Lemma NewGenerator_built ds :
  NewGenerator (option_of <$> ds) =
  let g := mkGenerator (registered ds) (wrap (sum_min (registered ds)))
             (wrap (sum_len (registered ds))) (provider (Iface rand_Reader []) ds) in
  if num g =? 0 then (None, Some NoCharactersErr) else (Some g, None).
Proof.
  unfold NewGenerator.
  destruct (foldl_options ds (mkGenerator [] 0 0 (Iface rand_Reader [])))
    as (H1 & H2 & H3 & H4 & H5 & H6).
  destruct (foldl _ _ _) as [cs m n r]. simpl in *. subst cs r.
  rewrite wrap_small in H2 by (by apply H4). rewrite wrap_small in H3 by (by apply H5).
  by subst m n.
Qed.

Lemma NewGenerator_consistent ds g :
  well_typed ds -> NewGenerator (option_of <$> ds) = (Some g, None) -> consistent g.
Proof.
  rewrite NewGenerator_built. simpl. intros Hwt.
  destruct (_ =? 0); [done|]. by intros [= <-].
Qed.

(** *** Lengths *)

Lemma block_lengths cs bs :
  Forall2 block cs bs -> Forall (fun c => is_uint (cmin c)) cs ->
  len (concat bs) = sum_min cs.
Proof.
  induction 1 as [|c b cs bs [Hb _] Hbs IH]; [done|].
  inversion 1 as [|? ? [Hc _] Hcs]; subst. simpl. rewrite len_app, IH by done.
  unfold len, iterations in *. lia.
Qed.

Lemma pool_chars_in_range cs ks :
  Forall (fun k => 0 <= k < len (pool cs)) ks ->
  Forall2 (fun k x => pool cs !! Z.to_nat k = Some x) ks (pool_chars cs ks).
Proof.
  unfold pool_chars. induction 1 as [|k ks Hk Hks IH]; simpl; [constructor|].
  destruct (lookup_lt_is_Some_2 (pool cs) (Z.to_nat k)) as [x Hx].
  { unfold len in Hk. lia. }
  rewrite Hx. by constructor.
Qed.

Lemma answered_in_contract b ks :
  Forall in_contract (answered b ks) -> Forall (fun k => 0 <= k < b) ks.
Proof.
  induction ks as [|k ks IH]; simpl; [constructor|].
  inversion 1 as [|? ? Hk Hks]; subst. constructor; [by apply (Hk k) | by apply IH].
Qed.


(** A password that is returned is as long as the length selected, once
    the provider keeps to its contract. *)
Lemma Generate_length g min max p g' :
  maxLen < 2 ^ 63 -> consistent g -> contract (random_ g) ->
  is_uint min -> is_uint max ->
  Generate g min max = (Returns (Some p, None), g') ->
  exists g1, getRandomLength g min max = (Returns (len p, None), g1).
Proof.
  intros HmaxLen Hcons Hcontract Hmin Hmax H.
  apply Generate_success in H
    as (d & bs & ks & t1 & t3 & p0 & [= <-] & Hv & Hd & Hext & Hbs & Hlen & Hks
        & Hp & Hn & Hfit & g1 & Hg1).
  exists g1. rewrite Hg1. do 3 f_equal. symmetry.
  destruct (extends_contract _ _ _ Hcontract Hext) as [_ Hall].
  apply Forall_app in Hall as [Hd' Hall]. apply Forall_app in Hall as [Hall _].
  apply Forall_app in Hall as [_ Hall]. apply answered_in_contract in Hall.
  apply Forall_inv in Hd'. specialize (Hd' d eq_refl). simpl in Hd'.
  destruct Hcons as (Hgmin & Hnum & Hmins).
  assert (Hsum : len (concat bs) = sum_min (charsets g)) by by apply block_lengths.
  assert (Hsmall : is_uint (sum_min (charsets g))).
  { rewrite <- Hsum. split; [apply len_nonneg|].
    destruct (charsets g) as [|c cs] eqn:Ecs.
    - inversion Hbs; subst. done.
    - unfold uint_size. assert (len (concat bs) <= maxLen) by by apply Hfit. lia. }
  rewrite wrap_small in Hgmin by done.
  unfold is_uint, uint_size in *.
  assert (Hspan : max - Z.max min (gmin g) + 1 <= 2 ^ 64) by lia.
  assert (wrap (max - Z.max min (gmin g) + 1) <= max - Z.max min (gmin g) + 1).
  { apply wrap_le. lia. }
  rewrite (wrap_small (d + _)) in * by (unfold is_uint, uint_size; lia).
  rewrite wrap_small in Hlen by (unfold is_uint, uint_size; lia).
  assert (Hin : Forall (fun k => 0 <= k < len (pool (charsets g))) ks).
  { eapply Forall_impl; [done|]. intros k Hk. simpl in Hk.
    rewrite len_pool. pose proof (wrap_le _ (sum_len_nonneg (charsets g))). lia. }
  apply pool_chars_in_range, Forall2_length in Hin.
  assert (Hsplit : length p = (length (concat bs) + length ks)%nat).
  { rewrite Hp, length_app. unfold uint, rune in *. lia. }
  unfold len, iterations in *. lia.
Qed.

(** *** When construction fails *)

Lemma NewGenerator_fails_iff ds :
  NewGenerator (option_of <$> ds) = (None, Some NoCharactersErr) <->
  wrap (sum_len (registered ds)) = 0.
Proof.
  rewrite NewGenerator_built. cbn [num].
  destruct (Z.eqb_spec (wrap (sum_len (registered ds))) 0); by split.
Qed.

Lemma NewGenerator_succeeds ds :
  wrap (sum_len (registered ds)) <> 0 ->
  exists g, NewGenerator (option_of <$> ds) = (Some g, None) /\ consistent_with ds g.
Proof.
  intros H. rewrite NewGenerator_built. cbn [num].
  destruct (Z.eqb_spec (wrap (sum_len (registered ds))) 0); [done|].
  eexists. split; [done|]. by split_and!.
Qed.

Lemma registered_replicate n s m :
  registered (replicate n (UseCharacters s m)) = replicate n (mkCharSet s m).
Proof. induction n as [|n IH]; [done|]. simpl. by rewrite <- IH. Qed.

Lemma sum_len_replicate n c : sum_len (replicate n c) = Z.of_nat n * len (set c).
Proof. induction n as [|n IH]; [done|]. cbn [replicate sum_len foldr] in *. fold (sum_len (replicate n c)). rewrite IH. lia. Qed.

Lemma len_replicate {A} n (x : A) : len (replicate n x) = Z.of_nat n.
Proof. unfold len. by rewrite length_replicate. Qed.

(** *** An empty set with a positive minimum *)

Lemma iterations_S n : 0 < n -> iterations n = S (iterations (n - 1)).
Proof. unfold iterations. lia. Qed.

Lemma minimum_chars_app pre cs g chars chars1 g1 :
  minimum_chars pre g chars = (Returns (inl chars1), g1) ->
  minimum_chars (pre ++ cs) g chars = minimum_chars cs g1 chars1.
Proof.
  revert g chars. induction pre as [|c pre IH]; intros g chars; simpl.
  - by intros [= <- <-].
  - destruct (getRandomChars _ _ _) as [[[new [e|]]|] r]; try done.
    destruct (append _ _); [apply IH | done].
Qed.

(** Drawing from an empty slice: the provider is asked for a number below 0,
    and nothing it answers leads to a character. *)
Lemma getRandomChars_empty r n :
  0 < n -> n <= maxLen ->
  exists a r1, callGet r 0 = (a, r1) /\
    getRandomChars r [] n =
      (match a with
       | Returns (_, Some e) => Returns (None, Some e)
       | _ => Panics
       end, r1).
Proof.
  intros Hn Hmax. unfold getRandomChars, make_len.
  destruct (Z.ltb_spec maxLen n); [lia|].
  rewrite iterations_S by done. simpl.
  destruct (callGet r (len [])) as [a r1] eqn:E. exists a, r1. split; [done|].
  by destruct a as [[k [e|]]|].
Qed.

Lemma random_Get_zero rd : random_Get rd 0 = (Panics, rd).
Proof. done. Qed.

(** *** Short sequences *)

Lemma shuffle_nil r :
  exists a r1, callGet r 0 = (a, r1) /\
    shuffle r [] =
      (match a with
       | Returns (_, Some e) => Returns (Some e)
       | _ => Panics
       end, [], r1).
Proof.
  unfold shuffle. change (wrap (len (@nil rune) - 1)) with (2 ^ 64 - 1).
  rewrite iterations_S by done. simpl.
  change (wrap (len (@nil rune) - 0)) with 0.
  destruct (callGet r 0) as [a r1] eqn:E. exists a, r1. split; [done|].
  by destruct a as [[k [e|]]|].
Qed.

Lemma shuffle_singleton r x : shuffle r [x] = (Returns None, [x], r).
Proof. done. Qed.

(** *** The pass over a sequence that is not empty *)

Lemma callGet_reliable r max :
  reliable r -> 0 < max -> is_uint max ->
  exists k r', callGet r max = (Returns (k, None), r') /\ 0 <= k < max /\ reliable r'.
Proof.
  intros Hr Hmax Hu. destruct (Hr (self r) max Hmax) as (k & s' & Hget & Hk).
  unfold callGet. rewrite Hget. simpl.
  rewrite wrap_small by (unfold is_uint in *; lia). eauto.
Qed.

Lemma shuffle_loop_pass rem i r chars :
  reliable r -> len chars < 2 ^ 64 -> 0 <= i -> i + Z.of_nat rem = len chars - 1 ->
  exists ks r',
    shuffle_loop rem i (len chars) r chars = (Returns None, pass i ks chars, r') /\
    length ks = rem /\
    extends r r' (pass_calls (len chars) i ks) /\
    Forall in_contract (pass_calls (len chars) i ks).
Proof.
  revert i r chars. induction rem as [|rem IH]; intros i r chars Hr Hn Hi Hrem; simpl.
  - exists [], r. simpl. split_and!; auto using extends_refl.
  - assert (Hb : is_uint (len chars - i)) by (unfold is_uint, uint_size; lia).
    rewrite wrap_small by done.
    destruct (callGet_reliable r (len chars - i)) as (k & r1 & Hcall & Hk & Hr1);
      [done|lia|done|].
    rewrite Hcall.
    destruct (callGet_spec _ _ _ _ Hcall) as (c & Hext & Hbound & m & Hm & He & _).
    destruct m; [done|]. apply (call_eta _ _ _ Hbound) in Hm. subst c.
    rewrite wrap_small by (unfold is_uint, uint_size; lia).
    unfold index.
    destruct (lookup_lt_is_Some_2 chars (Z.to_nat (i + k))) as [x Ex];
      [unfold len in *; lia|].
    destruct (lookup_lt_is_Some_2 chars (Z.to_nat i)) as [y Ey];
      [unfold len in *; lia|].
    rewrite Ex, Ey.
    assert (Hlen : len (<[Z.to_nat (i + k):=y]> (<[Z.to_nat i:=x]> chars)) = len chars).
    { unfold len. by rewrite !length_insert. }
    rewrite <- Hlen.
    destruct (IH (i + 1) r1 (<[Z.to_nat (i + k):=y]> (<[Z.to_nat i:=x]> chars)))
      as (ks & r' & Hrun & Hks & Hext' & Hin); rewrite ?Hlen in *; try done; try lia.
    exists (k :: ks), r'. simpl. split_and!; auto.
    + rewrite Hrun. unfold swap. by rewrite Ey, Ex.
    + eapply (extends_trans _ _ _ [_]); eauto.
    + constructor; [|done]. intros k0 [= <-]. simpl. lia.
Qed.

Lemma minimum_met g min max p g' c :
  Generate g min max = (Returns (Some p, None), g') ->
  c ∈ charsets g -> cmin c <= count_from (set c) p.
Proof.
  intros H Hc.
  apply Generate_success in H
    as (d & bs & ks & t1 & t3 & p0 & [= <-] & _ & _ & _ & Hbs & _ & _ & Hp & _).
  destruct (block_of _ _ _ Hbs Hc) as (b & Hb & Hblock).
  rewrite (count_from_Permutation _ _ _ Hp), count_from_app.
  pose proof (block_count _ _ Hblock).
  pose proof (count_from_concat (set c) _ _ Hb).
  pose proof (count_from_nonneg (set c) (pool_chars (charsets g) ks)).
  lia.
Qed.

Lemma sum_len_elem c cs : c ∈ cs -> len (set c) <= sum_len cs.
Proof.
  induction 1 as [c cs|c c' cs Hin IH]; simpl.
  - pose proof (sum_len_nonneg cs). lia.
  - pose proof (len_nonneg (set c')). lia.
Qed.

Lemma Generate_draws_below_zero g min max n g1 pre c post chars g2 :
  charsets g = pre ++ c :: post -> set c = [] -> 0 < cmin c <= maxLen ->
  getRandomLength g min max = (Returns (n, None), g1) -> n <= maxLen ->
  minimum_chars pre g1 [] = (Returns (inl chars), g2) ->
  exists t a, extends (random_ g) (random_ (Generate g min max).2) (t ++ [Call 0 a]) /\
    ((Generate g min max).1 = Panics \/
     exists k e, a = Returns (k, Some e) /\
                 (Generate g min max).1 = Returns (None, Some e)).
Proof.
  intros Hcs Hset Hmin Hlen Hn Hpre.
  assert (Hv : ~ (max < min \/ max < gmin g)).
  { intros Hi. by rewrite (getRandomLength_invalid _ _ _ Hi) in Hlen. }
  pose proof (getRandomLength_config g min max) as Hc. rewrite Hlen in Hc.
  injection Hc as Hc1 _ _.
  destruct (getRandomLength_valid _ _ _ _ _ Hv Hlen) as (c0 & Hext0 & _).
  destruct (minimum_chars_orderly _ _ _ _ _ Hpre) as (t1 & Hext1 & _).
  destruct (getRandomChars_empty (random_ g2) (cmin c)) as (a & r1 & Hcall & Hdraw);
    [lia..|].
  destruct (callGet_spec _ _ _ _ Hcall) as (c1 & Hext2 & Hb & Ha).
  assert (Hc1' : c1 = Call 0 (answer c1)) by by apply call_eta.
  rewrite Hc1' in Hext2.
  assert (Hext : extends (random_ g) r1 (([c0] ++ t1) ++ [Call 0 (answer c1)])).
  { eapply extends_trans; [|done]. eapply extends_trans; eauto. }
  exists ([c0] ++ t1), (answer c1).
  unfold Generate. rewrite Hlen. unfold generator_getRandomChars, make_cap.
  destruct (Z.ltb_spec maxLen n); [lia|].
  rewrite Hc1, Hcs, (minimum_chars_app _ _ _ _ _ _ Hpre). simpl.
  rewrite Hset, Hdraw.
  destruct a as [[k [e|]]|]; simpl; split; auto.
  destruct Ha as (m & Hm & <- & _). right. exists k, e. by rewrite Hm.
Qed.

(** ** The claims *)

(** C1.  A password that [Generate] returns contains, for each registered
    character set, at least that set's minimum number of characters that
    belong to the set.  This holds for every generator, in particular for
    every generator [NewGenerator] builds, and whatever the provider
    answers. *)
Theorem Generate_meets_minimums g min max p g' :
  Generate g min max = (Returns (Some p, None), g') ->
  Forall (fun c => cmin c <= count_from (set c) p) (charsets g).
Proof.
  intros H. apply Forall_forall. intros c Hc. by eapply minimum_met.
Qed.

(** C3, as the code has it.  The minimum sum the code compares with is
    the sum of the minimums modulo 2^64.  [Generate(min, max)] returns
    [InvalidLengthErr] exactly when [max < min] or [max] is below that
    minimum sum, or else a call of the provider returned [InvalidLengthErr]
    itself, which [Generate] passes on as it does every error of the
    provider.  It then returns no password; and in the first case it draws
    nothing and leaves the generator as it was. *)
Theorem Generate_InvalidLength_iff g min max :
  consistent g ->
  ((exists p, (Generate g min max).1 = Returns (p, Some InvalidLengthErr)) <->
   (max < min \/ max < wrap (sum_min (charsets g))) \/
   (exists t c, extends (random_ g) (random_ (Generate g min max).2) (t ++ [c]) /\
                failed_call c = Some InvalidLengthErr)) /\
  (forall p, (Generate g min max).1 = Returns (p, Some InvalidLengthErr) -> p = None) /\
  (max < min \/ max < wrap (sum_min (charsets g)) ->
   Generate g min max = (Returns (None, Some InvalidLengthErr), g)).
Proof.
  intros (Hgmin & _ & _). rewrite <- Hgmin.
  destruct (decide (max < min \/ max < gmin g)) as [Hi|Hv].
  - rewrite (Generate_invalid _ _ _ Hi). split_and!; [|by intros p [= <-]|done].
    split; [by left | by exists None].
  - destruct (Generate g min max) as [res g'] eqn:H.
    apply Generate_valid_orderly in H as (t & Hext & Hp & Hnil); [|done].
    cbn [fst snd]. split_and!; [split| |done].
    + intros [p ->]. right. simpl in Hp.
      destruct Hp as [[_ [?|?]]|(t0 & c & e & -> & _ & Hc & [= <-])]; [done..|].
      by exists t0, c.
    + intros [Hi|(t0 & c & Hext' & Hc)]; [done|].
      apply extends_calls in Hext, Hext'. rewrite Hext in Hext'.
      apply app_inv_head in Hext'. subst t.
      destruct Hp as [[Hno _]|(t1 & c1 & e & Ht & _ & Hc1 & Herr)].
      * apply Forall_app in Hno as [_ Hno]. apply Forall_inv in Hno. congruence.
      * apply app_inj_tail in Ht as [_ ->]. rewrite Hc in Hc1. injection Hc1 as <-.
        destruct res as [[v e]|]; [|done]. simpl in Herr. injection Herr as ->.
        by exists v.
    + intros p ->. by eapply Hnil.
Qed.

(** C8.  When a call of the provider made during [Generate] returns an
    error, in whichever phase, that call is the last one made and
    [Generate] returns [nil] together with that error. *)
Theorem Generate_propagates_provider_error g min max res g' :
  Generate g min max = (res, g') ->
  exists t, extends (random_ g) (random_ g') t /\
    forall c e, c ∈ t -> failed_call c = Some e ->
      res = Returns (None, Some e) /\
      exists t0, t = t0 ++ [c] /\ no_errors t0.
Proof.
  intros H.
  destruct (decide (max < min \/ max < gmin g)) as [Hi|Hv].
  - rewrite (Generate_invalid _ _ _ Hi) in H. injection H as <- <-.
    exists []. split; [apply extends_refl|]. intros c msg Hc. by apply elem_of_nil in Hc.
  - apply Generate_valid_orderly in H as (t & Hext & Hp & Hnil); [|done].
    exists t. split; [done|]. intros c msg Hc Hmsg.
    destruct Hp as [[Hno _]|(t0 & c0 & msg0 & -> & Hno & Hmsg0 & Herr)].
    + unfold no_errors in Hno. rewrite Forall_forall in Hno.
      rewrite (Hno c Hc) in Hmsg. done.
    + apply elem_of_app in Hc as [Hc|Hc].
      * unfold no_errors in Hno. rewrite Forall_forall in Hno.
        rewrite (Hno c Hc) in Hmsg. done.
      * apply list_elem_of_singleton in Hc as ->.
        rewrite Hmsg0 in Hmsg. injection Hmsg as <-.
        destruct res as [[v e]|]; [|done]. simpl in Herr. injection Herr as ->.
        rewrite (Hnil v _ eq_refl). eauto.
Qed.

(** C9.  Whatever sequence of [Generate] calls is made on a generator, and
    however each of them ends, the generator's configuration stays as it
    was: the character sets with their characters and minimums, the minimum
    sum and the pool size. *)
Theorem Generate_keeps_configuration reqs g :
  config (run reqs g) = config g /\
  charsets (run reqs g) = charsets g /\
  gmin (run reqs g) = gmin g /\
  num (run reqs g) = num g.
Proof.
  assert (H : config (run reqs g) = config g).
  { revert g. induction reqs as [|[min max] reqs IH]; intros g; [done|].
    simpl. rewrite IH. apply Generate_config. }
  split; [done|]. by injection H.
Qed.

(** C2.  For [max >= min] and [max] at least the generator's minimum sum,
    when the provider's answer [d] to the one call of the length selection
    is within the contract, that call has the bound [max - eff + 1], where
    [eff] is the larger of [min] and the minimum sum, the length selected is
    [eff + d], it lies between [eff] and [max], and a password that
    [Generate] returns has that length. *)
Theorem getRandomLength_in_range g min max d r' :
  is_uint min -> is_uint max -> is_uint (gmin g) ->
  min <= max -> gmin g <= max ->
  contract (random_ g) ->
  callGet (random_ g) (wrap (max - Z.max min (gmin g) + 1)) = (Returns (d, None), r') ->
  getRandomLength g min max = (Returns (Z.max min (gmin g) + d, None), set_random g r') /\
  calls r' = calls (random_ g)
             ++ [Call (max - Z.max min (gmin g) + 1) (Returns (d, None))] /\
  0 <= d < max - Z.max min (gmin g) + 1 /\
  Z.max min (gmin g) <= Z.max min (gmin g) + d <= max /\
  (forall p g', maxLen < 2 ^ 63 -> consistent g ->
     Generate g min max = (Returns (Some p, None), g') ->
     len p = Z.max min (gmin g) + d).
Proof.
  intros Hmin Hmax Hgmin Hle1 Hle2 Hcontract Hcall.
  destruct (callGet_spec _ _ _ _ Hcall) as (c & Hext & Hb & m & Ha & Hm & Hd).
  destruct m; [done|]. apply (call_eta _ _ _ Hb) in Ha. subst c.
  destruct (extends_contract _ _ _ Hcontract Hext) as [_ Hin].
  apply Forall_inv in Hin. specialize (Hin d eq_refl). simpl in Hin.
  unfold is_uint, uint_size in *.
  assert (Hw : wrap (max - Z.max min (gmin g) + 1) = max - Z.max min (gmin g) + 1).
  { destruct (decide (max - Z.max min (gmin g) + 1 = 2 ^ 64)) as [E|E].
    - rewrite E in Hin. change (wrap (2 ^ 64)) with 0 in Hin. lia.
    - apply wrap_small. unfold is_uint, uint_size. lia. }
  rewrite Hw in *.
  assert (Hlen : getRandomLength g min max
                 = (Returns (Z.max min (gmin g) + d, None), set_random g r')).
  { unfold getRandomLength.
    assert ((max <? min) || (max <? gmin g) = false) as ->.
    { apply orb_false_iff. lia. }
    assert ((if min <? gmin g then gmin g else min) = Z.max min (gmin g)) as ->.
    { destruct (Z.ltb_spec min (gmin g)); lia. }
    rewrite Hw, Hcall. rewrite wrap_small by (unfold is_uint, uint_size; lia).
    do 3 f_equal. lia. }
  split_and!; try done; try lia.
  - by rewrite (extends_calls _ _ _ Hext).
  - intros p g' HmaxLen Hcons H.
    apply Generate_length in H as (g1 & Hp); try done.
    rewrite Hlen in Hp. by injection Hp as ->.
Qed.

(** C4, as the code has it.  Building fails with [NoCharactersErr], and
    returns no generator, exactly when the pool size counted in 64 bits,
    the sum of the lengths of the registered sets modulo 2^64, is 0;
    otherwise it returns a generator and no error.  When the sum of the
    lengths is below 2^64, that is exactly when no set was registered or
    every registered set is empty. *)
Theorem NewGenerator_NoCharacters_iff ds :
  (NewGenerator (option_of <$> ds) = (None, Some NoCharactersErr) <->
   sum_len (registered ds) mod 2 ^ 64 = 0) /\
  (sum_len (registered ds) mod 2 ^ 64 <> 0 ->
   exists g, NewGenerator (option_of <$> ds) = (Some g, None) /\
             charsets g = registered ds) /\
  (forall g, (NewGenerator (option_of <$> ds)).2 = Some NoCharactersErr ->
             (NewGenerator (option_of <$> ds)).1 <> Some g) /\
  (sum_len (registered ds) < 2 ^ 64 ->
   (NewGenerator (option_of <$> ds) = (None, Some NoCharactersErr) <->
    Forall (fun c => set c = []) (registered ds))).
Proof.
  split_and!.
  - apply NewGenerator_fails_iff.
  - intros H. destruct (NewGenerator_succeeds ds H) as (g & Hg & Hcs & _). eauto.
  - intros g. rewrite NewGenerator_built. cbn [num].
    by destruct (_ =? 0).
  - intros H. rewrite NewGenerator_fails_iff, <- sum_len_zero.
    rewrite wrap_small; [done|]. split; [apply sum_len_nonneg | done].
Qed.


(** C5.  Whatever the provider answers, the contents of the sequence after
    [shuffle] are a permutation of its contents before.  On a sequence that
    is not empty and with a provider that answers positive bounds within
    the contract, [shuffle] returns without error after one pass from left
    to right: one draw for each position [i] from 0 to length-2, with bound
    length-i, and a swap of position [i] with position [i + k] for the
    number [k] drawn.  On the empty sequence the loop bound [n-1] wraps
    around: there is a draw with bound 0, and [shuffle] panics or returns
    the provider's error. *)
Theorem shuffle_is_one_pass r :
  (forall chars, (shuffle r chars).1.2 ≡ₚ chars) /\
  (forall chars, chars <> [] -> len chars < 2 ^ 64 -> reliable r ->
     exists ks r',
       shuffle r chars = (Returns None, pass 0 ks chars, r') /\
       len ks = len chars - 1 /\
       extends r r' (pass_calls (len chars) 0 ks) /\
       Forall in_contract (pass_calls (len chars) 0 ks)) /\
  (exists a r1, callGet r 0 = (a, r1) /\
     shuffle r [] = (match a with
                     | Returns (_, Some e) => Returns (Some e)
                     | _ => Panics
                     end, [], r1)).
Proof.
  split_and!.
  - apply shuffle_Permutation.
  - intros chars Hne Hn Hr.
    assert (Hpos : 0 < len chars).
    { destruct chars; [done|]. unfold len. simpl. lia. }
    assert (Hw : wrap (len chars - 1) = len chars - 1).
    { apply wrap_small. unfold is_uint, uint_size. lia. }
    assert (Hit : 0 + Z.of_nat (iterations (len chars - 1)) = len chars - 1).
    { unfold iterations. lia. }
    destruct (shuffle_loop_pass (iterations (len chars - 1)) 0 r chars)
      as (ks & r' & Hrun & Hlen & Hext & Hin); try done.
    exists ks, r'. unfold shuffle. rewrite Hw. split_and!; try done.
    unfold len, iterations in *. lia.
  - apply shuffle_nil.
Qed.

(** C6.  [shuffle] leaves a sequence of one element as it is, returns no
    error and makes no call of the provider.  On the empty sequence it is
    not so: the provider is called once, with bound 0, and [shuffle] does
    not return without error. *)
Theorem shuffle_short_sequence r :
  (forall x, shuffle r [x] = (Returns None, [x], r)) /\
  (exists a r1 c,
     callGet r 0 = (a, r1) /\ bound c = 0 /\ calls r1 = calls r ++ [c] /\
     shuffle r [] = (match a with
                     | Returns (_, Some e) => Returns (Some e)
                     | _ => Panics
                     end, [], r1) /\
     (shuffle r []).1.1 <> Returns None).
Proof.
  split; [apply shuffle_singleton|].
  destruct (shuffle_nil r) as (a & r1 & Hcall & Hrun).
  destruct (callGet_spec _ _ _ _ Hcall) as (c & Hext & Hb & _).
  exists a, r1, c. split_and!; try done.
  - by apply extends_calls.
  - rewrite Hrun. by destruct a as [[k [e|]]|].
Qed.

(** C10, as the code has it.  A configuration with an empty character set
    that has a positive minimum, next to a set that is not empty, passes
    construction when the pool size is below 2^64.  On the generator built,
    a [Generate] call whose length selection succeeds and whose first phase
    completes for the sets registered before the empty one (the buffers
    being allocated) calls the provider with bound 0 and then panics or
    returns the provider's error; no [Generate] call ever returns a
    password; and the default provider panics on the bound 0. *)
Theorem empty_set_with_minimum ds pre c post :
  registered ds = pre ++ c :: post -> set c = [] -> 0 < cmin c ->
  (exists c', c' ∈ registered ds /\ set c' <> []) ->
  sum_len (registered ds) < 2 ^ 64 ->
  (exists g, NewGenerator (option_of <$> ds) = (Some g, None) /\
             charsets g = registered ds) /\
  (forall g min max n g1 chars g2,
     charsets g = registered ds ->
     getRandomLength g min max = (Returns (n, None), g1) ->
     n <= maxLen -> cmin c <= maxLen ->
     minimum_chars pre g1 [] = (Returns (inl chars), g2) ->
     exists t a,
       extends (random_ g) (random_ (Generate g min max).2) (t ++ [Call 0 a]) /\
       ((Generate g min max).1 = Panics \/
        exists k e, a = Returns (k, Some e) /\
                    (Generate g min max).1 = Returns (None, Some e))) /\
  (forall g min max p g',
     charsets g = registered ds ->
     Generate g min max <> (Returns (Some p, None), g')) /\
  (forall rd, random_Get rd 0 = (Panics, rd)).
Proof.
  intros Hds Hset Hmin (c' & Hc' & Hne) Hsum. split_and!.
  - assert (Hpool : wrap (sum_len (registered ds)) <> 0).
    { pose proof (sum_len_elem _ _ Hc'). pose proof (sum_len_nonneg (registered ds)).
      rewrite wrap_small by (by split).
      destruct (set c'); [done|]. unfold len in *. simpl in *. lia. }
    destruct (NewGenerator_succeeds ds Hpool) as (g & Hg & Hcs & _). eauto.
  - intros g min max n g1 chars g2 Hcs Hlen Hn Hfit Hpre.
    eapply (Generate_draws_below_zero g min max n g1 pre c post chars g2);
      try done; try congruence; lia.
  - intros g min max p g' Hcs H.
    assert (Hin : c ∈ charsets g).
    { rewrite Hcs, Hds. apply elem_of_app. right. left. }
    pose proof (minimum_met _ _ _ _ _ _ H Hin) as Hcount.
    rewrite Hset, count_from_empty in Hcount. lia.
  - apply random_Get_zero.
Qed.

(** ** Further properties of the code *)

(** *** The default provider *)

(** [random.Get] panics exactly on the bounds 0 and 2^63 and above (the
    conversion to [int64] makes the latter negative); on every other bound
    it returns a number below the bound and no error, or 0 and the reader's
    error. *)
Theorem random_Get_outcomes rd max :
  is_uint max ->
  ((random_Get rd max).1 = Panics <-> max = 0 \/ 2 ^ 63 <= max) /\
  (forall k e, (random_Get rd max).1 = Returns (k, e) ->
     match e with
     | None => 0 <= k < max
     | Some _ => k = 0 /\ draws rd (pos rd) = None
     end).
Proof.
  intros [Hlo Hhi]. unfold uint_size in Hhi.
  unfold random_Get, int64_of_uint, rand_Int.
  destruct (Z.ltb_spec max (2 ^ 63)) as [Hsmall|Hbig].
  - destruct (Z.leb_spec max 0) as [Hz|Hpos].
    + split; [split; [lia | done]|]. intros k e [=].
    + destruct (draws rd (pos rd)) as [v|] eqn:Ev; simpl.
      * split; [split; [done | lia]|]. intros k e [= <- <-].
        pose proof (Z.mod_pos_bound v max Hpos) as Hv.
        rewrite wrap_small by (unfold is_uint, uint_size; lia). done.
      * split; [split; [done | lia]|]. by intros k e [= <- <-].
  - destruct (Z.leb_spec (max - uint_size) 0) as [Hz|Hpos]; [|unfold uint_size in *; lia].
    split; [split; [lia | done]|]. intros k e [=].
Qed.

Lemma callGet_dependable B r max :
  dependable B r -> 0 < max < B -> is_uint max ->
  exists k r', callGet r max = (Returns (k, None), r') /\ 0 <= k < max /\ dependable B r'.
Proof.
  intros (Inv & Hnow & Hstep) Hmax Hu.
  destruct (Hstep (self r) max Hnow Hmax) as (k & s' & Hget & Hk & Hinv).
  unfold callGet. rewrite Hget. simpl.
  rewrite wrap_small by (unfold is_uint in *; lia).
  eexists _, _. split; [done|]. split; [done|]. by exists Inv.
Qed.

Lemma random_dependable rd log :
  unfailing rd -> dependable (2 ^ 63) (Iface rd log).
Proof.
  intros Hrd. exists unfailing. split; [done|].
  intros s max Hs [Hpos Hmax]. simpl.
  unfold Get, random, random_Get, int64_of_uint, rand_Int.
  destruct (Z.ltb_spec max (2 ^ 63)); [|lia].
  destruct (Z.leb_spec max 0); [lia|].
  destruct (draws s (pos s)) as [v|] eqn:Ev; [|by destruct (Hs (pos s))].
  pose proof (Z.mod_pos_bound v max Hpos) as Hv.
  eexists _, _. split; [done|].
  rewrite wrap_small by (unfold is_uint, uint_size; lia). done.
Qed.

Lemma counter_dependable B n log : dependable B (Iface (Counter n) log).
Proof.
  exists (fun _ => True). split; [done|]. intros s max _ [Hpos _]. simpl.
  unfold Get, counter_Random, counter_Get.
  destruct (Z.ltb_spec 0 max); [|lia]. eexists _, _. split; [done|].
  split; [by apply Z.mod_pos_bound | done].
Qed.

Lemma random_Get_panics rd max :
  is_uint max -> max = 0 \/ 2 ^ 63 <= max -> random_Get rd max = (Panics, rd).
Proof.
  intros [Hlo Hhi] Hmax. unfold uint_size in Hhi.
  unfold random_Get, int64_of_uint, rand_Int.
  destruct (Z.ltb_spec max (2 ^ 63)).
  - destruct (Z.leb_spec max 0); [done | lia].
  - destruct (Z.leb_spec (max - uint_size) 0); [done | unfold uint_size in *; lia].
Qed.

(** With the default provider, [Generate] panics when the span of the
    lengths asked for, [max - eff + 1] with [eff] the larger of [min] and
    the minimum sum, is 2^63 or more: the span does not fit the [int64]
    that [random.Get] converts it to (and 2^64 wraps around to 0). *)
Theorem Generate_default_huge_span g min max (rd : Reader) log :
  random_ g = Iface rd log ->
  is_uint min -> is_uint max -> is_uint (gmin g) ->
  min <= max -> gmin g <= max ->
  2 ^ 63 <= max - Z.max min (gmin g) + 1 ->
  Generate g min max =
  (Panics, set_random g (Iface rd (log ++ [Call (wrap (max - Z.max min (gmin g) + 1)) Panics]))).
Proof.
  intros Hr Hmin Hmax Hg Hle1 Hle2 Hspan.
  unfold Generate, getRandomLength.
  assert ((max <? min) || (max <? gmin g) = false) as ->.
  { apply orb_false_iff. lia. }
  assert ((if min <? gmin g then gmin g else min) = Z.max min (gmin g)) as ->.
  { destruct (Z.ltb_spec min (gmin g)); lia. }
  unfold callGet. rewrite Hr. cbn [dyn dyn_Random self calls].
  change (@Get Reader random) with random_Get.
  rewrite random_Get_panics; [done | apply wrap_is_uint |].
  unfold is_uint, uint_size in *.
  destruct (decide (max - Z.max min (gmin g) + 1 = 2 ^ 64)) as [->|Hne].
  - by left.
  - right. rewrite wrap_small; [done|]. unfold is_uint, uint_size. lia.
Qed.

(** *** The function getRandomChars *)

Lemma answered_cons b k ks :
  answered b (k :: ks) = [Call b (Returns (k, None))] ++ answered b ks.
Proof. done. Qed.

Lemma getRandomChars_loop_draws rem i r from l chars cs r' :
  getRandomChars_loop rem i r from l chars = (Returns (Some cs, None), r') ->
  0 <= i -> (Z.to_nat i + rem <= length chars)%nat ->
  exists ks new,
    extends r r' (answered l ks) /\
    Forall2 (fun k x => from !! Z.to_nat k = Some x) ks new /\
    length new = rem /\
    cs = take (Z.to_nat i) chars ++ new ++ drop (Z.to_nat i + rem) chars.
Proof.
  revert i r chars. induction rem as [|rem IH]; intros i r chars; simpl; intros H Hi Hlen.
  - injection H as <- <-. exists [], []. rewrite Nat.add_0_r, app_nil_l, take_drop.
    split_and!; auto using extends_refl.
  - step_call. destruct a as [[k [e|]]|]; try done.
    destruct Hanswer as (m & Hm & He & Hk). destruct m; [done|].
    apply (call_eta _ _ _ Hbound) in Hm. subst c.
    destruct (index from k) as [x|] eqn:Ex; [|done].
    apply index_Returns in Ex.
    apply IH in H as (ks & new & Hext' & Hall & Hn & ->);
      [|lia|rewrite length_insert; lia].
    exists (k :: ks), (x :: new).
    replace (Z.to_nat (i + 1)) with (S (Z.to_nat i)) by lia.
    split_and!.
    + rewrite answered_cons. eapply extends_trans; eauto.
    + by constructor.
    + simpl. by rewrite Hn.
    + erewrite take_S_r; [|apply list_lookup_insert_eq; lia].
      rewrite take_insert_ge by lia. rewrite drop_insert_lt by lia.
      rewrite <- app_assoc. simpl. repeat f_equal. lia.
Qed.

(** When [getRandomChars] returns without error it has made [n] calls with
    bound [len(from)] and returns, in the order of the calls, the
    characters of [from] at the numbers it was given: a slice of length
    [n], never nil. *)
Theorem getRandomChars_draws r from n res r' :
  getRandomChars r from n = (Returns (res, None), r') ->
  exists ks b,
    res = Some b /\
    extends r r' (answered (len from) ks) /\
    Forall2 (fun k x => from !! Z.to_nat k = Some x) ks b /\
    length b = iterations n /\ n <= maxLen.
Proof.
  unfold getRandomChars, make_len. destruct (Z.ltb_spec maxLen n) as [|Hn0]; [done|].
  intros H. destruct res as [b|].
  - apply getRandomChars_loop_draws in H as (ks & new & Hext & Hall & Hn & ->);
      [|done|rewrite length_replicate; unfold iterations; simpl; lia].
    exists ks, new. simpl.
    rewrite drop_ge, app_nil_r by (rewrite length_replicate; unfold iterations; lia).
    auto.
  - by destruct (getRandomChars_loop_not_nil (iterations n) 0 r from (len from)
                   (replicate (Z.to_nat n) 0) None r').
Qed.

Lemma getRandomChars_loop_total B rem i r from chars :
  dependable B r -> 0 < len from < B -> is_uint (len from) ->
  0 <= i -> (Z.to_nat i + rem <= length chars)%nat ->
  exists cs r',
    getRandomChars_loop rem i r from (len from) chars = (Returns (Some cs, None), r') /\
    length cs = length chars /\ dependable B r'.
Proof.
  revert i r chars. induction rem as [|rem IH]; intros i r chars Hr Hl Hu Hi Hlen; simpl.
  - eauto.
  - destruct (callGet_dependable B r (len from) Hr Hl Hu) as (k & r1 & -> & Hk & Hr1).
    unfold index.
    destruct (lookup_lt_is_Some_2 from (Z.to_nat k)) as [x ->]; [unfold len in *; lia|].
    destruct (IH (i + 1) r1 (<[Z.to_nat i:=x]> chars)) as (cs & r' & Hrun & Hcs & Hr');
      try done; [lia | rewrite length_insert; lia |].
    exists cs, r'. rewrite Hrun. rewrite length_insert in Hcs. done.
Qed.

Lemma getRandomChars_answered B r from n :
  dependable B r -> from <> [] -> len from < B -> is_uint (len from) ->
  0 <= n <= maxLen ->
  exists b r',
    getRandomChars r from n = (Returns (Some b, None), r') /\
    len b = n /\ Forall (fun x => x ∈ from) b /\ dependable B r'.
Proof.
  intros Hr Hne Hl Hu Hn.
  assert (Hpos : 0 < len from).
  { destruct from; [done|]. unfold len. simpl. lia. }
  unfold getRandomChars, make_len. destruct (Z.ltb_spec maxLen n); [lia|].
  destruct (getRandomChars_loop_total B (iterations n) 0 r from (replicate (Z.to_nat n) 0))
    as (cs & r' & Hrun & Hlen & Hr'); try done.
  { rewrite length_replicate. unfold iterations. simpl. lia. }
  exists cs, r'. split; [done|].
  apply getRandomChars_loop_success in Hrun as Hrun'; [|done|].
  2:{ rewrite length_replicate. unfold iterations. simpl. lia. }
  destruct Hrun' as (new & -> & Hnew & Hall).
  rewrite length_replicate in Hlen. split_and!; [|  |done].
  - unfold len. lia.
  - simpl. rewrite drop_ge, app_nil_r by (rewrite length_replicate; unfold iterations; lia).
    done.
Qed.

(** With a provider that answers the bound [len(from)], on a slice that is
    not empty and for a number [n] the runtime can allocate,
    [getRandomChars] returns [n] characters of [from] and no error. *)
Theorem getRandomChars_total B r from n :
  dependable B r -> from <> [] -> len from < B -> is_uint (len from) ->
  0 <= n <= maxLen ->
  exists b r',
    getRandomChars r from n = (Returns (Some b, None), r') /\
    len b = n /\ Forall (fun x => x ∈ from) b /\ dependable B r'.
Proof.
  apply getRandomChars_answered.
Qed.

(** *** When everything goes well *)

Lemma getRandomChars_zero r from :
  0 <= maxLen -> getRandomChars r from 0 = (Returns (Some [], None), r).
Proof.
  intros H. unfold getRandomChars, make_len. by destruct (Z.ltb_spec maxLen 0); [lia|].
Qed.

Lemma minimum_chars_total B cs g chars :
  B <= 2 ^ 64 ->
  dependable B (random_ g) ->
  Forall (fun c => 0 <= cmin c /\ (0 < cmin c -> set c <> [])) cs ->
  Forall (fun c => len (set c) < B) cs ->
  len chars + sum_min cs <= maxLen ->
  exists chars' g',
    minimum_chars cs g chars = (Returns (inl chars'), g') /\
    len chars' = len chars + sum_min cs /\ dependable B (random_ g').
Proof.
  intros HB. revert g chars.
  induction cs as [|c cs IH]; intros g chars Hr Hcs Hlens Hfit; simpl in *.
  - exists chars, g. split; [done|]. split; [lia | done].
  - inversion Hcs as [|? ? [Hmin Hset] Hcs']; subst.
    inversion Hlens as [|? ? Hlen Hlens']; subst.
    assert (Hsum : 0 <= sum_min cs).
    { clear -Hcs'. induction Hcs' as [|c cs [H _] _ IH]; simpl; lia. }
    pose proof (len_nonneg chars) as Hchars.
    assert (Hdraw : exists b r',
      getRandomChars (random_ g) (set c) (cmin c) = (Returns (Some b, None), r') /\
      len b = cmin c /\ dependable B r').
    { destruct (decide (cmin c = 0)) as [Hz|Hnz].
      - rewrite Hz, getRandomChars_zero by lia. by exists [], (random_ g).
      - destruct (getRandomChars_answered B (random_ g) (set c) (cmin c))
          as (b & r' & Hrun & Hb & _ & Hr'); try done.
        + apply Hset. lia.
        + pose proof (len_nonneg (set c)). unfold is_uint, uint_size. lia.
        + lia.
        + by exists b, r'. }
    destruct Hdraw as (b & r' & -> & Hb & Hr'). simpl.
    unfold append. destruct (Z.ltb_spec maxLen (len chars + len b)); [lia|].
    destruct (IH (set_random g r') (chars ++ b)) as (chars' & g' & Hrun & Hlen' & Hg');
      try done.
    { rewrite len_app. lia. }
    exists chars', g'. rewrite Hrun. split; [done|]. rewrite Hlen', len_app. split; [lia|done].
Qed.

Lemma fill_loop_total B rem g chars :
  dependable B (random_ g) -> 0 < num g < B -> is_uint (num g) ->
  num g <= len (pool (charsets g)) ->
  len chars + Z.of_nat rem <= maxLen ->
  exists chars' g',
    fill_loop rem g chars = (Returns (Some chars', None), g') /\
    len chars' = len chars + Z.of_nat rem /\ dependable B (random_ g').
Proof.
  revert g chars. induction rem as [|rem IH]; intros g chars Hr Hnum Hu Hpool Hfit; simpl.
  - exists chars, g. split; [done|]. split; [lia | done].
  - destruct (callGet_dependable B (random_ g) (num g) Hr Hnum Hu) as (k & r1 & -> & Hk & Hr1).
    simpl. rewrite pick_pool by (unfold is_uint in *; lia).
    destruct (lookup_lt_is_Some_2 (pool (charsets g)) (Z.to_nat k)) as [x ->];
      [unfold len in *; lia|].
    unfold append. change (len [x]) with 1.
    destruct (Z.ltb_spec maxLen (len chars + 1)); [lia|].
    destruct (IH (set_random g r1) (chars ++ [x])) as (chars' & g' & Hrun & Hlen & Hg');
      try done.
    { rewrite len_app. change (len [x]) with 1. lia. }
    exists chars', g'. rewrite Hrun. split; [done|]. rewrite Hlen, len_app.
    change (len [x]) with 1. split; [lia | done].
Qed.

Lemma shuffle_loop_total B rem i r chars :
  B <= 2 ^ 64 ->
  dependable B r -> len chars < B -> 0 <= i -> i + Z.of_nat rem = len chars - 1 ->
  exists chars' r',
    shuffle_loop rem i (len chars) r chars = (Returns None, chars', r') /\
    dependable B r'.
Proof.
  intros HB. revert i r chars.
  induction rem as [|rem IH]; intros i r chars Hr Hn Hi Hrem; simpl.
  - eauto.
  - assert (Hb : is_uint (len chars - i)) by (unfold is_uint, uint_size; lia).
    rewrite wrap_small by done.
    destruct (callGet_dependable B r (len chars - i)) as (k & r1 & -> & Hk & Hr1);
      [done|lia|done|].
    rewrite wrap_small by (unfold is_uint, uint_size; lia).
    unfold index.
    destruct (lookup_lt_is_Some_2 chars (Z.to_nat (i + k))) as [x ->];
      [unfold len in *; lia|].
    destruct (lookup_lt_is_Some_2 chars (Z.to_nat i)) as [y ->];
      [unfold len in *; lia|].
    assert (Hlen : len (<[Z.to_nat (i + k):=y]> (<[Z.to_nat i:=x]> chars)) = len chars).
    { unfold len. by rewrite !length_insert. }
    rewrite <- Hlen. apply IH; rewrite ?Hlen; try done; lia.
Qed.

Lemma getRandomLength_total B g min max :
  B <= 2 ^ 64 ->
  dependable B (random_ g) ->
  is_uint min -> is_uint max -> 0 <= gmin g -> min <= max -> gmin g <= max ->
  max - Z.max min (gmin g) + 1 < B ->
  exists d r1,
    getRandomLength g min max = (Returns (Z.max min (gmin g) + d, None), set_random g r1) /\
    0 <= d <= max - Z.max min (gmin g) /\ dependable B r1.
Proof.
  intros HB64 Hr Hmin Hmax Hg Hle1 Hle2 HB. unfold is_uint, uint_size in *.
  unfold getRandomLength.
  assert ((max <? min) || (max <? gmin g) = false) as ->.
  { apply orb_false_iff. lia. }
  assert ((if min <? gmin g then gmin g else min) = Z.max min (gmin g)) as ->.
  { destruct (Z.ltb_spec min (gmin g)); lia. }
  rewrite wrap_small by (unfold is_uint, uint_size; lia).
  destruct (callGet_dependable B (random_ g) (max - Z.max min (gmin g) + 1))
    as (d & r1 & -> & Hd & Hr1); [done | lia | unfold is_uint, uint_size; lia |].
  exists d, r1. rewrite wrap_small by (unfold is_uint, uint_size; lia).
  split_and!; try done; try lia. do 3 f_equal. lia.
Qed.

Lemma sum_min_nonneg cs :
  Forall (fun c => 0 <= cmin c /\ (0 < cmin c -> set c <> [])) cs -> 0 <= sum_min cs.
Proof. induction 1 as [|c cs [H _] _ IH]; simpl; lia. Qed.

Lemma generator_getRandomChars_total B g n :
  B <= 2 ^ 64 ->
  dependable B (random_ g) -> sound g ->
  Forall (fun c => len (set c) < B) (charsets g) -> num g < B ->
  gmin g <= n <= maxLen -> is_uint n ->
  exists chars g',
    generator_getRandomChars g n = (Returns (Some chars, None), g') /\
    len chars = n /\ dependable B (random_ g') /\ config g' = config g.
Proof.
  intros HB Hr (Hgmin & Hnum & Hpos & Hsets) Hlens HnumB Hn Hu.
  pose proof (sum_min_nonneg _ Hsets) as Hsum. rewrite <- Hgmin in Hsum.
  unfold is_uint, uint_size in *.
  pose proof (generator_getRandomChars_config g n) as Hconfig.
  unfold generator_getRandomChars, make_cap in *.
  destruct (Z.ltb_spec maxLen n); [lia|].
  destruct (minimum_chars_total B (charsets g) g [])
    as (chars1 & g2 & Hrun1 & Hlen1 & Hr2); try done.
  { change (len (@nil rune)) with 0. lia. }
  pose proof (minimum_chars_config (charsets g) g []) as Hc2.
  rewrite Hrun1 in Hc2, Hconfig |- *. injection Hc2 as Hc2a Hc2b Hc2c.
  change (len (@nil rune)) with 0 in Hlen1.
  rewrite Hc2b in Hconfig |- *.
  rewrite wrap_small in Hconfig |- * by (unfold is_uint, uint_size; lia).
  destruct (fill_loop_total B (iterations (n - gmin g)) g2 chars1)
    as (chars2 & g3 & Hrun2 & Hlen2 & Hr3); try done.
  { rewrite Hc2c. lia. }
  { rewrite Hc2c. unfold is_uint, uint_size. lia. }
  { rewrite Hc2a, Hc2c, len_pool. lia. }
  { unfold iterations. lia. }
  rewrite Hrun2 in Hconfig |- *. exists chars2, g3. split_and!; try done.
  unfold iterations in Hlen2. lia.
Qed.

Lemma shuffle_total B r chars :
  B <= 2 ^ 64 -> dependable B r -> chars <> [] -> len chars < B ->
  exists chars' r',
    shuffle r chars = (Returns None, chars', r') /\
    chars' ≡ₚ chars /\ dependable B r'.
Proof.
  intros HB Hr Hne Hlen.
  assert (Hpos : 0 < len chars).
  { destruct chars; [done|]. unfold len. simpl. lia. }
  pose proof (shuffle_Permutation r chars) as Hperm.
  unfold shuffle in *. rewrite wrap_small in Hperm |- * by (unfold is_uint, uint_size; lia).
  destruct (shuffle_loop_total B (iterations (len chars - 1)) 0 r chars)
    as (shuffled & r' & Hrun & Hr'); try done.
  { unfold iterations. lia. }
  rewrite Hrun in Hperm |- *. eauto.
Qed.

Lemma Generate_total B g min max :
  B <= 2 ^ 64 ->
  dependable B (random_ g) -> sound g ->
  Forall (fun c => len (set c) < B) (charsets g) -> num g < B ->
  is_uint min -> is_uint max -> min <= max -> gmin g <= max ->
  1 <= Z.max min (gmin g) -> max <= maxLen -> max < B ->
  exists p g',
    Generate g min max = (Returns (Some p, None), g') /\
    Z.max min (gmin g) <= len p <= max /\
    dependable B (random_ g') /\ config g' = config g.
Proof.
  intros HB Hr Hsound Hlens HnumB Hmin Hmax Hle1 Hle2 Heff HmaxLen HmaxB.
  pose proof Hsound as (Hgmin & _ & _ & Hsets).
  pose proof (sum_min_nonneg _ Hsets) as Hsum. rewrite <- Hgmin in Hsum.
  pose proof (Generate_config g min max) as Hconfig.
  unfold Generate in *.
  destruct (getRandomLength_total B g min max) as (d & r1 & Hrun1 & Hd & Hr1);
    try done; [lia|].
  rewrite Hrun1 in Hconfig |- *.
  destruct (generator_getRandomChars_total B (set_random g r1) (Z.max min (gmin g) + d))
    as (chars & g2 & Hrun2 & Hlen & Hr2 & Hc2); try done.
  { simpl. lia. }
  { unfold is_uint, uint_size in *. lia. }
  rewrite Hrun2 in Hconfig |- *. cbn [default from_option id] in *.
  destruct (shuffle_total B (random_ g2) chars) as (shuffled & r3 & Hrun3 & Hperm & Hr3);
    try done.
  { intros ->. change (len (@nil rune)) with 0 in Hlen. lia. }
  { lia. }
  rewrite Hrun3 in Hconfig |- *. exists shuffled, (set_random g2 r3).
  split_and!; try done; unfold len in *; rewrite Hperm; lia.
Qed.

(** With such a provider [Generate] succeeds on a sound configuration for
    every request of a length that is at least 1: it returns a password
    whose length lies between the larger of [min] and the minimum sum and
    [max], with the minimum of every set, and leaves the generator as
    configured and the provider as dependable as before, so that the next
    call succeeds as well. *)
Theorem Generate_succeeds B g min max :
  B <= 2 ^ 64 ->
  dependable B (random_ g) -> sound g ->
  Forall (fun c => len (set c) < B) (charsets g) -> num g < B ->
  is_uint min -> is_uint max -> min <= max -> gmin g <= max ->
  1 <= Z.max min (gmin g) -> max <= maxLen -> max < B ->
  exists p g',
    Generate g min max = (Returns (Some p, None), g') /\
    Z.max min (gmin g) <= len p <= max /\
    Forall (fun c => cmin c <= count_from (set c) p) (charsets g) /\
    sound g' /\ config g' = config g /\ dependable B (random_ g').
Proof.
  intros HB Hr Hsound Hlens HnumB Hmin Hmax Hle1 Hle2 Heff HmaxLen HmaxB.
  destruct (Generate_total B g min max) as (p & g' & Hrun & Hlen & Hr' & Hc); try done.
  exists p, g'. split; [done|]. split; [done|]. split; [|split; [|done]].
  - apply Forall_forall. intros c Hc'. by eapply minimum_met.
  - injection Hc as Hc1 Hc2 Hc3. unfold sound. by rewrite Hc1, Hc2, Hc3.
Qed.

(** *** The outcomes of Generate *)

Lemma shuffle_success_nonempty r chars chars' r' :
  shuffle r chars = (Returns None, chars', r') -> chars <> [].
Proof.
  intros H ->. destruct (shuffle_nil r) as (a & r1 & _ & Hnil).
  rewrite Hnil in H. by destruct a as [[k [e|]]|].
Qed.

(** [Generate] ends in one of three ways: it panics, it returns nil and an
    error, or it returns no error and a password that is neither nil nor
    empty.  It never returns both a password and an error, and never an
    empty password. *)
Theorem Generate_outcomes g min max :
  (Generate g min max).1 = Panics \/
  (exists e, (Generate g min max).1 = Returns (None, Some e)) \/
  (exists p, (Generate g min max).1 = Returns (Some p, None) /\ p <> []).
Proof.
  unfold Generate.
  destruct (getRandomLength g min max) as [[[n [e|]]|] g1]; simpl; eauto.
  destruct (generator_getRandomChars g1 n) as [[[chars [e|]]|] g2] eqn:E2; simpl; eauto.
  apply generator_getRandomChars_success in E2 as (bs & ks & t1 & -> & _).
  simpl.
  destruct (shuffle (random_ g2) _) as [[[[e|]|] shuffled] r3] eqn:E3; simpl; eauto.
  right. right. exists shuffled. split; [done|].
  pose proof (shuffle_Permutation (random_ g2) (concat bs ++ pool_chars (charsets g1) ks)) as Hp.
  rewrite E3 in Hp. simpl in Hp.
  apply shuffle_success_nonempty in E3.
  intros ->. by apply Permutation_nil_l in Hp.
Qed.

(** When the larger of [min] and the minimum sum is [max] itself, as in
    [Generate(n, n)], the one length possible is selected: with a provider
    that keeps to its contract, a returned password has exactly [max]
    characters. *)
Theorem Generate_fixed_length g min max p g' :
  maxLen < 2 ^ 63 -> consistent g -> contract (random_ g) ->
  is_uint min -> is_uint max -> Z.max min (gmin g) = max ->
  Generate g min max = (Returns (Some p, None), g') ->
  len p = max.
Proof.
  intros HmaxLen Hcons Hcontract Hmin Hmax Heff H.
  assert (Hv : ~ (max < min \/ max < gmin g)) by lia.
  destruct (Generate_length g min max p g') as (g1 & Hlen); try done.
  destruct (getRandomLength_valid _ _ _ _ _ Hv Hlen) as (c & Hext & Hb & _ & _ & Hn).
  destruct (Hn _ eq_refl) as (d & Hd & Hud & ->).
  destruct (extends_contract _ _ _ Hcontract Hext) as [_ Hin].
  pose proof (Forall_inv Hin d Hd) as Hd'.
  rewrite Hb, Heff in Hd'. change (wrap (max - max + 1)) with (wrap (max - max + 1)) in Hd'.
  replace (max - max + 1) with 1 in Hd' by lia. change (wrap 1) with 1 in Hd'.
  rewrite Heff. replace d with 0 by lia. apply wrap_small. simpl. done.
Qed.

(** *** The inner loop of the second phase *)

Lemma elem_of_pool x cs : x ∈ pool cs -> exists c, c ∈ cs /\ x ∈ set c.
Proof.
  induction cs as [|c cs IH]; [by intros H%elem_of_nil|].
  rewrite pool_cons. intros [H|H]%elem_of_app.
  - exists c. split; [left | done].
  - destruct (IH H) as (c' & Hc' & Hx). exists c'. split; [by right | done].
Qed.

(** The inner loop never panics; it finds no character exactly when the
    number drawn is not below the sum of the sizes of the sets, and a
    character it finds belongs to one of the sets. *)
Theorem pick_outcomes cs k :
  is_uint k ->
  pick cs k <> Panics /\
  (pick cs k = Returns None <-> sum_len cs <= k) /\
  (forall x, pick cs k = Returns (Some x) -> exists c, c ∈ cs /\ x ∈ set c).
Proof.
  intros Hk. rewrite pick_pool by done. split_and!.
  - done.
  - rewrite <- len_pool. unfold len. destruct Hk as [Hk _]. split.
    + intros [= H]. apply lookup_ge_None in H. lia.
    + intros H. f_equal. apply lookup_ge_None. lia.
  - intros x [= H]. apply list_elem_of_lookup_2 in H. by apply elem_of_pool.
Qed.

(** *** The characters of a password *)

Lemma blocks_from_sets cs bs :
  Forall2 block cs bs ->
  Forall (fun x => exists c, c ∈ cs /\ x ∈ set c) (concat bs).
Proof.
  induction 1 as [|c b cs bs [_ Hb] Hbs IH]; simpl; [constructor|].
  apply Forall_app. split.
  - eapply Forall_impl; [exact Hb|]. intros x Hx. exists c. split; [left | done].
  - eapply Forall_impl; [exact IH|]. intros x (c' & Hc' & Hx). exists c'.
    split; [by right | done].
Qed.

(** Whatever the provider answers, every character of a password that
    [Generate] returns is a character of one of the registered sets. *)
Theorem Generate_alphabet g min max p g' :
  Generate g min max = (Returns (Some p, None), g') ->
  Forall (fun x => exists c, c ∈ charsets g /\ x ∈ set c) p.
Proof.
  intros H.
  apply Generate_success in H
    as (d & bs & ks & t1 & t3 & p' & [= <-] & _ & _ & _ & Hbs & _ & _ & Hperm & _).
  rewrite Hperm. apply Forall_app. split; [by apply blocks_from_sets|].
  apply Forall_forall. intros x Hx. unfold pool_chars in Hx.
  apply list_elem_of_omap in Hx as (k & _ & Hk).
  apply list_elem_of_lookup_2 in Hk. by apply elem_of_pool.
Qed.

(** *** Options *)

Lemma provider_app r0 ds ds' : provider r0 (ds ++ ds') = provider (provider r0 ds) ds'.
Proof. unfold provider. by rewrite foldl_app. Qed.

Lemma provider_sets_only r0 ds : sets_only ds -> provider r0 ds = r0.
Proof.
  induction 1 as [|[s m|r] ds Hd Hds IH]; [done| |done]. exact IH.
Qed.

(** The options are applied in the order given: the generator built has
    the character sets in their order of registration, wherever the
    [WithRandom] options stand among them, the two counters are their sums
    modulo 2^64, the provider is the one of the last [WithRandom], and the
    default provider when there is none. *)
Theorem NewGenerator_options ds g :
  NewGenerator (option_of <$> ds) = (Some g, None) ->
  charsets g = registered ds /\
  gmin g = sum_min (registered ds) mod 2 ^ 64 /\
  num g = sum_len (registered ds) mod 2 ^ 64 /\
  num g <> 0 /\
  (forall ds1 r ds2, ds = ds1 ++ UseRandom r :: ds2 -> sets_only ds2 -> random_ g = r) /\
  (sets_only ds -> random_ g = Iface rand_Reader []).
Proof.
  rewrite NewGenerator_built. cbn [num].
  destruct (Z.eqb_spec (wrap (sum_len (registered ds))) 0) as [|Hnum]; [done|].
  intros [= <-]. cbn [charsets gmin num random_]. split_and!; try done.
  - intros ds1 r ds2 -> Hds2. rewrite provider_app. simpl.
    by apply provider_sets_only.
  - by apply provider_sets_only.
Qed.

(** *** What the provider is asked *)

Lemma bound_answered b ks : bound <$> answered b ks = replicate (length ks) b.
Proof. induction ks as [|k ks IH]; [done|]. simpl. by rewrite <- IH. Qed.

Lemma getRandomChars_calls r from n res r' :
  getRandomChars r from n = (Returns (res, None), r') ->
  exists t, extends r r' t /\ bound <$> t = replicate (iterations n) (len from).
Proof.
  unfold getRandomChars, make_len. destruct (Z.ltb_spec maxLen n) as [|Hn0]; [done|].
  intros H. destruct res as [b|].
  - apply getRandomChars_loop_draws in H as (ks & new & Hext & Hall & Hn & _);
      [|done|rewrite length_replicate; unfold iterations; simpl; lia].
    exists (answered (len from) ks). split; [done|].
    rewrite bound_answered. apply Forall2_length in Hall. f_equal.
    unfold uint, rune in *. lia.
  - by destruct (getRandomChars_loop_not_nil (iterations n) 0 r from (len from)
                   (replicate (Z.to_nat n) 0) None r').
Qed.

Lemma minimum_chars_bounds cs g chars chars' g' :
  minimum_chars cs g chars = (Returns (inl chars'), g') ->
  exists t, extends (random_ g) (random_ g') t /\ bound <$> t = minimum_bounds cs.
Proof.
  revert g chars. induction cs as [|c cs IH]; intros g chars; simpl; intros H.
  - injection H as <- <-. exists []. split; [apply extends_refl | done].
  - destruct (getRandomChars _ _ _) as [[[new [e|]]|] r1] eqn:E1; try done.
    apply getRandomChars_calls in E1 as (t1 & Hext1 & Hb1).
    destruct (append _ _); [|done].
    apply IH in H as (t2 & Hext2 & Hb2).
    exists (t1 ++ t2). split; [eapply extends_trans; eauto|].
    unfold minimum_bounds in *. rewrite fmap_app, Hb1, Hb2. done.
Qed.

Lemma generator_getRandomChars_bounds g n res g' :
  generator_getRandomChars g n = (Returns (res, None), g') ->
  exists t, extends (random_ g) (random_ g') t /\
    bound <$> t = minimum_bounds (charsets g)
                  ++ replicate (iterations (wrap (n - gmin g))) (num g).
Proof.
  unfold generator_getRandomChars, make_cap.
  destruct (Z.ltb_spec maxLen n) as [|Hn]; [done|].
  destruct (minimum_chars _ _ _) as [res1 g1] eqn:E1.
  pose proof (minimum_chars_config (charsets g) g []) as Hc. rewrite E1 in Hc.
  injection Hc as Hc1 Hc2 Hc3.
  destruct res1 as [[chars1|e]|]; try done.
  apply minimum_chars_bounds in E1 as (t1 & Hext1 & Hb1).
  intros H. apply fill_loop_success in H as (ks & Hlen & _ & Hext2 & _).
  exists (t1 ++ answered (num g1) ks). split; [eapply extends_trans; eauto|].
  rewrite fmap_app, Hb1, bound_answered, Hc3, <- Hc2. do 2 f_equal.
  unfold uint, rune in *. lia.
Qed.

Lemma shuffle_loop_bounds rem i n r chars chars' r' :
  shuffle_loop rem i n r chars = (Returns None, chars', r') ->
  exists t, extends r r' t /\
    bound <$> t = (fun j => wrap (n - (i + Z.of_nat j))) <$> seq 0 rem.
Proof.
  revert i r chars. induction rem as [|rem IH]; intros i r chars; simpl; intros H.
  - injection H as _ <-. exists []. split; [apply extends_refl | done].
  - step_call. destruct a as [[k [e|]]|]; try done.
    destruct (index chars (wrap (i + k))) as [x|]; [|done].
    destruct (index chars i) as [y|]; [|done].
    apply IH in H as (t & Hext' & Hb).
    exists ([c] ++ t). split; [eapply extends_trans; eauto|].
    change (seq 0 (S rem)) with (0%nat :: seq 1 rem).
    rewrite fmap_app, !fmap_cons, Hbound, Hb. simpl. rewrite Z.add_0_r. f_equal.
    rewrite <- fmap_S_seq, <- list_fmap_compose. apply list_fmap_ext.
    intros j ? _. simpl. f_equal. lia.
Qed.

Lemma Generate_success_calls g min max p g' :
  Generate g min max = (Returns (Some p, None), g') ->
  exists n g1 t,
    getRandomLength g min max = (Returns (n, None), g1) /\
    calls (random_ g') = calls (random_ g) ++ t /\
    p <> [] /\
    bound <$> t =
      [wrap (max - Z.max min (gmin g) + 1)]
      ++ (minimum_bounds (charsets g)
          ++ replicate (iterations (wrap (n - gmin g))) (num g))
      ++ ((fun j => wrap (len p - (0 + Z.of_nat j)))
            <$> seq 0 (iterations (wrap (len p - 1)))).
Proof.
  intros H.
  assert (Hv : ~ (max < min \/ max < gmin g)).
  { intros Hi. by rewrite (Generate_invalid _ _ _ Hi) in H. }
  unfold Generate in H.
  destruct (getRandomLength g min max) as [res1 g1] eqn:E1.
  pose proof (getRandomLength_config g min max) as Hc. rewrite E1 in Hc.
  injection Hc as Hc1 Hc2 Hc3.
  destruct (getRandomLength_valid _ _ _ _ _ Hv E1) as (c & Hext1 & Hb & _).
  destruct res1 as [[n [e|]]|]; try done.
  destruct (generator_getRandomChars g1 n) as [[[chars [e|]]|] g2] eqn:E2; try done.
  pose proof E2 as E2'.
  apply generator_getRandomChars_success in E2' as (bs & ks & t1 & -> & _).
  apply generator_getRandomChars_bounds in E2 as (t2 & Hext2 & Hb2).
  simpl in H.
  destruct (shuffle _ _) as [[res3 shuffled] r3] eqn:E3.
  pose proof (shuffle_Permutation (random_ g2)
                (concat bs ++ pool_chars (charsets g1) ks)) as Hp.
  rewrite E3 in Hp. simpl in Hp.
  pose proof (shuffle_success_nonempty (random_ g2)
                (concat bs ++ pool_chars (charsets g1) ks)) as Hne.
  unfold shuffle in E3.
  destruct res3 as [[e|]|]; try done. injection H as <- <-.
  specialize (Hne _ _ E3).
  apply shuffle_loop_bounds in E3 as (t3 & Hext3 & Hb3).
  exists n, g1, ([c] ++ t2 ++ t3). split_and!.
  - done.
  - simpl random_. eapply extends_calls.
    eapply extends_trans; [done|]. eapply extends_trans; eauto.
  - intros ->. apply Permutation_nil_l in Hp. by symmetry in Hp.
  - assert (Hlen : len shuffled = len (concat bs ++ pool_chars (charsets g) ks)).
    { unfold len. by rewrite Hp, Hc1. }
    rewrite !fmap_app, Hb2, Hb3. simpl. rewrite Hb, Hc1, Hc2, Hc3, Hlen. done.
Qed.

Lemma len_minimum_bounds cs :
  Forall (fun c => is_uint (cmin c)) cs -> len (minimum_bounds cs) = sum_min cs.
Proof.
  induction 1 as [|c cs [Hc _] Hcs IH]; [done|].
  change (minimum_bounds (c :: cs))
    with (replicate (iterations (cmin c)) (len (set c)) ++ minimum_bounds cs).
  simpl. rewrite len_app, IH. unfold len. rewrite length_replicate.
  unfold iterations. lia.
Qed.

Lemma shuffle_bounds_wrap n :
  1 <= n < 2 ^ 64 ->
  (fun j => wrap (n - (0 + Z.of_nat j))) <$> seq 0 (iterations (wrap (n - 1)))
  = shuffle_bounds n.
Proof.
  intros Hn. unfold shuffle_bounds.
  rewrite wrap_small by (unfold is_uint, uint_size; lia).
  apply list_fmap_ext. intros i j Hj. apply lookup_seq in Hj as [-> Hi].
  unfold iterations in Hi. simpl.
  rewrite wrap_small by (unfold is_uint, uint_size; lia). lia.
Qed.

(** A successful [Generate] that returns a password of [n] characters has
    asked the provider, in this order, for a number below the span of the
    lengths, for each set as many numbers below its size as its minimum,
    for each further character a number below the pool size, and for the
    shuffle numbers below [n], [n-1], ..., 2: in all [2 n] numbers. *)
Theorem Generate_asks g min max p g' :
  maxLen < 2 ^ 63 -> consistent g -> contract (random_ g) ->
  is_uint min -> is_uint max ->
  Generate g min max = (Returns (Some p, None), g') ->
  exists t,
    calls (random_ g') = calls (random_ g) ++ t /\
    bound <$> t = Generate_bounds g min max (len p) /\
    len t = 2 * len p.
Proof.
  intros HmaxLen Hcons Hcontract Hmin Hmax H.
  destruct (Generate_length g min max p g') as (g1 & Hlen); try done.
  destruct (Generate_success_calls _ _ _ _ _ H) as (n & g1' & t & Hlen' & Hcalls & Hne & Hb).
  rewrite Hlen in Hlen'. injection Hlen' as <- <-.
  apply Generate_success in H
    as (d & bs & ks & t1 & t3 & p0 & [= <-] & Hv & Hd & Hext & Hbs & _ & _ & _ & _
        & Hfit & g2 & Hg2).
  rewrite Hlen in Hg2. injection Hg2 as Hp _.
  destruct (extends_contract _ _ _ Hcontract Hext) as [_ Hall].
  apply Forall_app in Hall as [Hd' _].
  apply Forall_inv in Hd'. specialize (Hd' d eq_refl). simpl in Hd'.
  destruct Hcons as (Hgmin & Hnum & Hmins).
  assert (Hsum : len (concat bs) = sum_min (charsets g)) by by apply block_lengths.
  assert (Hsmall : is_uint (sum_min (charsets g))).
  { rewrite <- Hsum. split; [apply len_nonneg|].
    destruct (charsets g) as [|c cs] eqn:Ecs.
    - inversion Hbs; subst. done.
    - unfold uint_size. assert (len (concat bs) <= maxLen) by by apply Hfit. lia. }
  rewrite wrap_small in Hgmin by done.
  assert (Hpos : 1 <= len p).
  { destruct p; [done|]. unfold len. simpl. lia. }
  unfold is_uint, uint_size in *.
  assert (Hspan : wrap (max - Z.max min (gmin g) + 1) = max - Z.max min (gmin g) + 1).
  { destruct (decide (max - Z.max min (gmin g) + 1 = 2 ^ 64)) as [E|E].
    - rewrite E in Hd'. change (wrap (2 ^ 64)) with 0 in Hd'. lia.
    - apply wrap_small. unfold is_uint, uint_size. lia. }
  rewrite Hspan in *.
  rewrite wrap_small in Hp by (unfold is_uint, uint_size; lia).
  rewrite (wrap_small (len p - gmin g)) in Hb by (unfold is_uint, uint_size; lia).
  rewrite shuffle_bounds_wrap in Hb by lia.
  exists t. split; [done|]. split.
  - rewrite Hb. unfold Generate_bounds. by rewrite <- app_assoc.
  - assert (Hcount : len (bound <$> t) = 2 * len p).
    { rewrite Hb, !len_app, len_minimum_bounds by done.
      unfold shuffle_bounds, len. rewrite length_fmap, length_seq, length_replicate.
      unfold len, iterations in *. simpl. lia. }
    unfold len in *. by rewrite length_fmap in Hcount.
Qed.

(** *** The orders the shuffle can produce *)

Lemma scripted_call k ks log max :
  is_uint k ->
  callGet (Iface (scripted (k :: ks)) log) max
  = (Returns (k, None), Iface (scripted ks) (log ++ [Call max (Returns (k, None))])).
Proof. intros Hk. unfold callGet. simpl. by rewrite wrap_small. Qed.

(** With scripted answers that keep to the contract, the loop of [shuffle]
    is the pass of the specification. *)
Lemma shuffle_loop_scripted ks : forall i chars log,
  0 <= i -> len chars < 2 ^ 64 ->
  Forall in_contract (pass_calls (len chars) i ks) ->
  shuffle_loop (length ks) i (len chars) (Iface (scripted ks) log) chars
  = (Returns None, pass i ks chars,
     Iface (scripted []) (log ++ pass_calls (len chars) i ks)).
Proof.
  induction ks as [|k ks IH]; intros i chars log Hi Hn Hin.
  - simpl. by rewrite app_nil_r.
  - cbn [pass_calls] in Hin. inversion Hin as [|? ? Hk Hin']; subst.
    specialize (Hk k eq_refl). cbn [bound] in Hk.
    cbn [length shuffle_loop].
    rewrite (wrap_small (len chars - i)) by (unfold is_uint, uint_size; lia).
    rewrite scripted_call by (unfold is_uint, uint_size; lia).
    rewrite (wrap_small (i + k)) by (unfold is_uint, uint_size; lia).
    unfold index.
    destruct (lookup_lt_is_Some_2 chars (Z.to_nat (i + k))) as [x Ex];
      [unfold len in *; lia|].
    destruct (lookup_lt_is_Some_2 chars (Z.to_nat i)) as [y Ey];
      [unfold len in *; lia|].
    rewrite Ex, Ey. cbn [pass pass_calls]. unfold swap. rewrite Ey, Ex.
    assert (Hlen : len (<[Z.to_nat (i + k):=y]> (<[Z.to_nat i:=x]> chars)) = len chars).
    { unfold len. by rewrite !length_insert. }
    rewrite <- Hlen at 1. rewrite IH; rewrite ?Hlen; try done; [|lia].
    by rewrite <- app_assoc.
Qed.

Lemma swap_front pre x (rest : list rune) j y :
  (x :: rest) !! j = Some y ->
  exists rest',
    swap (pre ++ x :: rest) (length pre) (length pre + j) = (pre ++ [y]) ++ rest' /\
    y :: rest' ≡ₚ x :: rest.
Proof.
  intros Hj. unfold swap.
  rewrite (lookup_app_r pre _ (length pre)) by lia. rewrite Nat.sub_diag. simpl.
  rewrite (lookup_app_r pre _ (length pre + j)) by lia.
  replace (length pre + j - length pre)%nat with j by lia. rewrite Hj.
  rewrite !insert_app_r_alt by lia. rewrite Nat.sub_diag.
  replace (length pre + j - length pre)%nat with j by lia.
  destruct j as [|j]; simpl in Hj |- *.
  - injection Hj as ->. exists rest. by rewrite <- app_assoc.
  - exists (<[j:=x]> rest). split; [by rewrite <- app_assoc|].
    by apply insert_head_Permutation.
Qed.

Lemma pass_reaches m : forall (rest q pre : list rune),
  length rest = S m -> q ≡ₚ rest ->
  exists ks : list uint,
    length ks = m /\
    Forall in_contract (pass_calls (len (pre ++ rest)) (len pre) ks) /\
    pass (len pre) ks (pre ++ rest) = pre ++ q.
Proof.
  induction m as [|m IH]; intros rest q pre Hlen Hperm.
  - destruct rest as [|x [|]]; try done. apply Permutation_singleton_r in Hperm as ->.
    exists []. split; [done|]. split; [constructor | done].
  - destruct rest as [|x rest]; [done|]. injection Hlen as Hlen.
    destruct q as [|y q]; [by apply Permutation_nil_l in Hperm|].
    assert (Hy : y ∈ x :: rest) by (rewrite <- Hperm; left).
    apply list_elem_of_lookup_1 in Hy as [j Hj].
    pose proof (lookup_lt_Some _ _ _ Hj) as Hjlt. simpl in Hjlt.
    destruct (swap_front pre x rest j y Hj) as (rest' & Hswap & Hperm').
    assert (Hlen' : length rest' = length rest).
    { apply Permutation_length in Hperm'. simpl in Hperm'. lia. }
    destruct (IH rest' q (pre ++ [y])) as (ks & Hks & Hin & Hpass).
    { lia. }
    { apply (Permutation_cons_inv (a:=y)). by rewrite Hperm, Hperm'. }
    assert (Hn : len ((pre ++ [y]) ++ rest') = len (pre ++ x :: rest)).
    { unfold len. rewrite !length_app. simpl. lia. }
    assert (Hi : len (pre ++ [y]) = len pre + 1).
    { unfold len. rewrite length_app. simpl. lia. }
    rewrite Hn, Hi in Hin. rewrite Hi in Hpass.
    exists (Z.of_nat j :: ks). split; [simpl; lia|]. split.
    + cbn [pass_calls]. constructor; [|done]. intros k [= <-]. cbn [bound].
      unfold len. rewrite length_app. simpl. lia.
    + cbn [pass]. replace (Z.to_nat (len pre)) with (length pre) by (unfold len; lia).
      replace (Z.to_nat (len pre + Z.of_nat j)) with (length pre + j)%nat
        by (unfold len; lia).
      rewrite Hswap, Hpass. by rewrite <- app_assoc.
Qed.

(** [shuffle] can leave the sequence in every order: for each arrangement
    [q] of a sequence that is not empty there are answers of the provider,
    one for each position but the last and each below its bound, with which
    [shuffle] returns without error and leaves [q]. *)
Theorem shuffle_reaches_every_order chars q :
  chars <> [] -> q ≡ₚ chars -> len chars < 2 ^ 64 ->
  exists ks : list uint,
    len ks = len chars - 1 /\
    Forall in_contract (pass_calls (len chars) 0 ks) /\
    forall log,
      shuffle (Iface (scripted ks) log) chars
      = (Returns None, q, Iface (scripted []) (log ++ pass_calls (len chars) 0 ks)).
Proof.
  intros Hne Hperm Hn.
  destruct chars as [|x chars]; [done|].
  destruct (pass_reaches (length chars) (x :: chars) q [] eq_refl Hperm)
    as (ks & Hks & Hin & Hpass).
  rewrite app_nil_l in Hin, Hpass. change (len (@nil rune)) with 0 in Hin, Hpass.
  assert (Hl : len (x :: chars) = len chars + 1) by (unfold len; simpl; lia).
  pose proof (len_nonneg chars) as Hpos.
  exists ks. split; [rewrite Hl; unfold len; lia|]. split; [done|]. intros log.
  unfold shuffle. rewrite wrap_small by (unfold is_uint, uint_size; lia).
  replace (iterations (len (x :: chars) - 1)) with (length ks)
    by (rewrite Hl; unfold iterations, len; lia).
  rewrite shuffle_loop_scripted by done. by rewrite Hpass.
Qed.

Lemma pass_keeps_prefix ks : forall i (pre rest : list rune),
  len pre <= i -> Forall (fun k => 0 <= k) ks ->
  exists rest', pass i ks (pre ++ rest) = pre ++ rest'.
Proof.
  induction ks as [|k ks IH]; intros i pre rest Hi Hks; [by exists rest|].
  inversion Hks as [|? ? Hk Hks']; subst. cbn [pass]. unfold swap.
  destruct ((pre ++ rest) !! Z.to_nat i) as [y|]; [|apply IH; [lia | done]].
  destruct ((pre ++ rest) !! Z.to_nat (i + k)) as [x|]; [|apply IH; [lia | done]].
  rewrite !insert_app_r_alt by (unfold len in *; lia). apply IH; [lia | done].
Qed.

Lemma pass_injective ks : forall ks' (rest pre : list rune),
  NoDup rest -> length ks = length ks' ->
  Forall in_contract (pass_calls (len (pre ++ rest)) (len pre) ks) ->
  Forall in_contract (pass_calls (len (pre ++ rest)) (len pre) ks') ->
  pass (len pre) ks (pre ++ rest) = pass (len pre) ks' (pre ++ rest) ->
  ks = ks'.
Proof.
  induction ks as [|k ks IH]; intros [|k' ks'] rest pre Hnd Hlen Hin Hin' Heq; try done.
  cbn [pass_calls] in Hin, Hin'.
  inversion Hin as [|? ? Hk Hin1]; subst. inversion Hin' as [|? ? Hk' Hin1']; subst.
  specialize (Hk k eq_refl). specialize (Hk' k' eq_refl). cbn [bound] in Hk, Hk'.
  rewrite len_app in Hk, Hk'.
  destruct rest as [|x rest]; [change (len (@nil rune)) with 0 in Hk; lia|].
  destruct (lookup_lt_is_Some_2 (x :: rest) (Z.to_nat k)) as [y Ey];
    [unfold len in *; lia|].
  destruct (lookup_lt_is_Some_2 (x :: rest) (Z.to_nat k')) as [y' Ey'];
    [unfold len in *; lia|].
  destruct (swap_front pre x rest _ y Ey) as (rest1 & Hswap & Hperm).
  destruct (swap_front pre x rest _ y' Ey') as (rest1' & Hswap' & Hperm').
  cbn [pass] in Heq.
  replace (Z.to_nat (len pre)) with (length pre) in Heq by (unfold len; lia).
  replace (Z.to_nat (len pre + k)) with (length pre + Z.to_nat k)%nat in Heq
    by (unfold len; lia).
  replace (Z.to_nat (len pre + k')) with (length pre + Z.to_nat k')%nat in Heq
    by (unfold len; lia).
  rewrite Hswap, Hswap' in Heq.
  assert (Hi : len (pre ++ [y]) = len pre + 1).
  { unfold len. rewrite length_app. simpl. lia. }
  assert (Hi' : len (pre ++ [y']) = len pre + 1).
  { unfold len. rewrite length_app. simpl. lia. }
  assert (Hnn : forall ks0 n i, Forall in_contract (pass_calls n i ks0) ->
                                Forall (fun k => 0 <= k) ks0).
  { clear. induction ks0 as [|k0 ks0 IH0]; intros n i H; [constructor|].
    cbn [pass_calls] in H. inversion H as [|? ? Hk0 H0]; subst.
    specialize (Hk0 k0 eq_refl). constructor; [lia | by eapply IH0]. }
  destruct (pass_keeps_prefix ks (len pre + 1) (pre ++ [y]) rest1) as [r Hr];
    [lia | by eapply Hnn|].
  destruct (pass_keeps_prefix ks' (len pre + 1) (pre ++ [y']) rest1') as [r' Hr'];
    [lia | by eapply Hnn|].
  assert (Hy : y = y').
  { rewrite Hr, Hr' in Heq. apply app_inj_1 in Heq as [Heq _];
      [|by rewrite !length_app]. by apply app_inv_head in Heq as [= ->]. }
  subst y'.
  assert (Hkk : Z.to_nat k = Z.to_nat k') by (by eapply NoDup_lookup).
  assert (k = k') as <- by lia.
  rewrite Hswap in Hswap'. apply app_inv_head in Hswap'. subst rest1'.
  f_equal. apply (IH ks' rest1 (pre ++ [y])).
  - rewrite <- Hperm in Hnd. by apply NoDup_cons in Hnd as [_ Hnd].
  - by injection Hlen.
  - replace (len ((pre ++ [y]) ++ rest1)) with (len (pre ++ x :: rest)); [by rewrite Hi|].
    apply Permutation_length in Hperm. unfold len. rewrite !length_app. simpl in *. lia.
  - replace (len ((pre ++ [y]) ++ rest1)) with (len (pre ++ x :: rest)); [by rewrite Hi|].
    apply Permutation_length in Hperm. unfold len. rewrite !length_app. simpl in *. lia.
  - by rewrite Hi.
Qed.

(** On a sequence without repeated characters the answers are determined
    by the order [shuffle] leaves: two sequences of answers within the
    contract that leave the same order are the same.  With the theorem
    before, the answers within the contract and the orders of the sequence
    correspond one to one. *)
Theorem shuffle_answers_determined chars ks ks' log log' :
  NoDup chars -> len chars < 2 ^ 64 ->
  len ks = len chars - 1 -> len ks' = len chars - 1 ->
  Forall in_contract (pass_calls (len chars) 0 ks) ->
  Forall in_contract (pass_calls (len chars) 0 ks') ->
  (shuffle (Iface (scripted ks) log) chars).1.2
  = (shuffle (Iface (scripted ks') log') chars).1.2 ->
  ks = ks'.
Proof.
  intros Hnd Hn Hks Hks' Hin Hin'. unfold shuffle.
  rewrite wrap_small by (unfold is_uint, uint_size, len in *; lia).
  replace (iterations (len chars - 1)) with (length ks) at 1
    by (unfold iterations, len in *; lia).
  replace (iterations (len chars - 1)) with (length ks')
    by (unfold iterations, len in *; lia).
  rewrite !shuffle_loop_scripted by done. cbn [fst snd]. intros Heq.
  apply (pass_injective ks ks' chars []); try done.
  unfold len in *. lia.
Qed.

(** *** The test *)

Lemma count_from_cons set c p :
  count_from set (c :: p) = (if decide (c ∈ set) then 1 else 0) + count_from set p.
Proof.
  unfold count_from. destruct (decide (c ∈ set)).
  - rewrite filter_cons_True by done. unfold len. simpl. lia.
  - rewrite filter_cons_False by done. lia.
Qed.

Lemma countClasses_ge (f : tally -> Z) (P : rune -> Prop) set :
  (forall t c, f t <= f (classify t c)) ->
  (forall t c, P c -> f (classify t c) = f t + 1) ->
  (forall x, x ∈ set -> P x) ->
  forall p t, f t + count_from set p <= f (foldl classify t p).
Proof.
  intros Hmono Hstep Hset p. induction p as [|c p IH]; intros t; simpl.
  - unfold count_from, len. simpl. lia.
  - rewrite count_from_cons. specialize (IH (classify t c)).
    destruct (decide (c ∈ set)) as [Hc|Hc].
    + rewrite (Hstep t c) in IH by auto. lia.
    + specialize (Hmono t c). lia.
Qed.

Ltac classify_cases c :=
  unfold classify;
  destruct (Z.leb_spec 97 c); destruct (Z.leb_spec c 122);
  destruct (Z.leb_spec 65 c); destruct (Z.leb_spec c 90);
  destruct (Z.leb_spec 48 c); destruct (Z.leb_spec c 57);
  simpl; lia.

Lemma countClasses_minimums p :
  1 <= count_from LowerCaseAlphabet p -> 2 <= count_from UpperCaseAlphabet p ->
  3 <= count_from Digits p -> 4 <= count_from symbols p ->
  1 <= numLower (countClasses p) /\ 2 <= numUpper (countClasses p) /\
  3 <= numDigits (countClasses p) /\ 4 <= numSpecial (countClasses p).
Proof.
  intros H1 H2 H3 H4. unfold countClasses. split_and!.
  - pose proof (countClasses_ge numLower (fun c => 97 <= c <= 122) LowerCaseAlphabet) as H.
    etrans; [|apply H]; [simpl; lia| | |].
    + intros t c. classify_cases c.
    + intros t c Hc. classify_cases c.
    + apply Forall_forall. apply (bool_decide_unpack _). by vm_compute.
  - pose proof (countClasses_ge numUpper (fun c => 65 <= c <= 90) UpperCaseAlphabet) as H.
    etrans; [|apply H]; [simpl; lia| | |].
    + intros t c. classify_cases c.
    + intros t c Hc. classify_cases c.
    + apply Forall_forall. apply (bool_decide_unpack _). by vm_compute.
  - pose proof (countClasses_ge numDigits (fun c => 48 <= c <= 57) Digits) as H.
    etrans; [|apply H]; [simpl; lia| | |].
    + intros t c. classify_cases c.
    + intros t c Hc. classify_cases c.
    + apply Forall_forall. apply (bool_decide_unpack _). by vm_compute.
  - pose proof (countClasses_ge numSpecial
                  (fun c => ~ 97 <= c <= 122 /\ ~ 65 <= c <= 90 /\ ~ 48 <= c <= 57)
                  symbols) as H.
    etrans; [|apply H]; [simpl; lia| | |].
    + intros t c. classify_cases c.
    + intros t c Hc. classify_cases c.
    + apply Forall_forall. apply (bool_decide_unpack _). by vm_compute.
Qed.

Lemma testOptions_built :
  NewGenerator (option_of <$> testOptions)
  = (Some (mkGenerator (registered testOptions) 10 91 (Iface rand_Reader [])), None).
Proof. rewrite NewGenerator_built. reflexivity. Qed.

Lemma test_iteration g :
  20 <= maxLen ->
  config g = (registered testOptions, 10, 91) -> dependable (2 ^ 63) (random_ g) ->
  exists p g',
    Generate g 8 20 = (Returns (Some p, None), g') /\
    10 <= len p <= 20 /\
    1 <= numLower (countClasses p) /\ 2 <= numUpper (countClasses p) /\
    3 <= numDigits (countClasses p) /\ 4 <= numSpecial (countClasses p) /\
    config g' = (registered testOptions, 10, 91) /\ dependable (2 ^ 63) (random_ g').
Proof.
  intros HmaxLen Hc Hr. injection Hc as Hsets Hgmin Hnum.
  destruct (Generate_total (2 ^ 63) g 8 20) as (p & g' & Hrun & Hlen & Hr' & Hc');
    try done; try (rewrite ?Hgmin, ?Hnum; unfold is_uint, uint_size; lia).
  { unfold sound. rewrite Hsets, Hgmin, Hnum. split_and!; try done.
    repeat (constructor; [split; [done | discriminate]|]). constructor. }
  { rewrite Hsets. repeat (constructor; [done|]). constructor. }
  exists p, g'. rewrite Hgmin in Hlen. split; [done|]. split; [lia|].
  assert (Hmet : forall c, c ∈ charsets g -> cmin c <= count_from (set c) p).
  { intros c Hin. by eapply minimum_met. }
  rewrite Hsets in Hmet.
  pose proof (Hmet (mkCharSet LowerCaseAlphabet 1) ltac:(repeat constructor)) as H1.
  pose proof (Hmet (mkCharSet UpperCaseAlphabet 2) ltac:(repeat constructor)) as H2.
  pose proof (Hmet (mkCharSet Digits 3) ltac:(repeat constructor)) as H3.
  pose proof (Hmet (mkCharSet symbols 4) ltac:(repeat constructor)) as H4.
  destruct (countClasses_minimums p H1 H2 H3 H4) as (? & ? & ? & ?).
  split_and!; try done. rewrite Hc'. unfold config. by rewrite Hsets, Hgmin, Hnum.
Qed.

Lemma test_iterations i g :
  20 <= maxLen ->
  config g = (registered testOptions, 10, 91) -> dependable (2 ^ 63) (random_ g) ->
  config (run (replicate i (8, 20)) g) = (registered testOptions, 10, 91) /\
  dependable (2 ^ 63) (random_ (run (replicate i (8, 20)) g)).
Proof.
  intros HmaxLen. revert g. induction i as [|i IH]; intros g Hc Hr; [done|].
  destruct (test_iteration g HmaxLen Hc Hr) as (p & g' & Hrun & _ & _ & _ & _ & _ & Hc' & Hr').
  change (run (replicate (S i) (8, 20)) g)
    with (run (replicate i (8, 20)) (Generate g 8 20).2).
  rewrite Hrun. by apply IH.
Qed.

(** [TestGenPassword] passes whenever the reader behind [crypto/rand] does
    not fail and the runtime can allocate 20 runes: [NewGenerator()] returns
    [NoCharactersErr]; the generator of the test is built; [Generate(8, 9)]
    and [Generate(20, 19)] return [InvalidLengthErr]; and in every iteration
    of the loop, whatever the number of iterations before it, [Generate(8,
    20)] returns a password of 10 to 20 characters in which the switch of
    the test counts at least 1 lower case letter, 2 upper case letters, 3
    digits and 4 other characters. *)
Theorem TestGenPassword_passes (i : nat) :
  unfailing rand_Reader -> 20 <= maxLen ->
  NewGenerator [] = (None, Some NoCharactersErr) /\
  (NewGenerator (option_of <$> testOptions)).2 = None /\
  Generate (built testOptions) 8 9
  = (Returns (None, Some InvalidLengthErr), built testOptions) /\
  Generate (built testOptions) 20 19
  = (Returns (None, Some InvalidLengthErr), built testOptions) /\
  exists p,
    (Generate (run (replicate i (8, 20)) (built testOptions)) 8 20).1
    = Returns (Some p, None) /\
    10 <= len p <= 20 /\
    1 <= numLower (countClasses p) /\ 2 <= numUpper (countClasses p) /\
    3 <= numDigits (countClasses p) /\ 4 <= numSpecial (countClasses p).
Proof.
  intros Hrd HmaxLen.
  assert (Hg : built testOptions
               = mkGenerator (registered testOptions) 10 91 (Iface rand_Reader [])).
  { unfold built. by rewrite testOptions_built. }
  split; [done|]. split; [by rewrite testOptions_built|].
  split; [apply Generate_invalid; rewrite Hg; simpl; lia|].
  split; [apply Generate_invalid; rewrite Hg; simpl; lia|].
  rewrite Hg.
  destruct (test_iterations i (mkGenerator (registered testOptions) 10 91 (Iface rand_Reader []))
              HmaxLen eq_refl (random_dependable _ _ Hrd)) as [Hc Hr].
  destruct (test_iteration _ HmaxLen Hc Hr) as (p & g' & Hrun & ? & ? & ? & ? & ? & _).
  exists p. by rewrite Hrun.
Qed.

End Generator.

(** ** The theorems at concrete inputs *)

Lemma counter_contract n log : contract (Iface (Counter n) log).
Proof.
  intros s max k s'. simpl. unfold Get, counter_Random, counter_Get.
  destruct (Z.ltb_spec 0 max); [|done]. intros [= <- _].
  by apply Z.mod_pos_bound.
Qed.

Lemma counter_reliable n log : reliable (Iface (Counter n) log).
Proof.
  intros s max Hmax. simpl. unfold Get, counter_Random, counter_Get.
  destruct (Z.ltb_spec 0 max); [|lia]. eexists _, _. split; [done|].
  by apply Z.mod_pos_bound.
Qed.

(** [Generate(8, 20)] on the generator of [TestGenPassword], with the
    counting provider started at 5. *)
Lemma Generate_meets_minimums_witness :
  exists p,
    (Generate maxLen_amd64 (testGenerator steadyReader (Iface (Counter 5) [])) 8 20).1
    = Returns (Some p, None) /\
    Forall (fun c => cmin c <= count_from (set c) p)
           (charsets (testGenerator steadyReader (Iface (Counter 5) []))).
Proof.
  eexists. split.
  - vm_compute. reflexivity.
  - eapply (Generate_meets_minimums maxLen_amd64 _ 8 20 _
              (Generate maxLen_amd64 (testGenerator steadyReader (Iface (Counter 5) [])) 8 20).2).
    vm_compute. reflexivity.
Defined.

(** The length selection of [Generate(8, 20)] on the same generator: the
    provider answers 5 to the bound 11, the length is 15. *)
Lemma getRandomLength_in_range_witness :
  contract (Iface (Counter 5) []) /\
  (getRandomLength (testGenerator steadyReader (Iface (Counter 5) [])) 8 20).1
  = Returns (15, None) /\
  10 <= 15 <= 20.
Proof.
  split; [apply counter_contract|].
  destruct (getRandomLength_in_range maxLen_amd64
              (testGenerator steadyReader (Iface (Counter 5) [])) 8 20 5
              (callGet (Iface (Counter 5) []) 11).2)
    as (H1 & _ & _ & H4 & _).
  - unfold is_uint, uint_size. lia.
  - unfold is_uint, uint_size. lia.
  - vm_compute. split; [discriminate | reflexivity].
  - lia.
  - vm_compute. discriminate.
  - apply counter_contract.
  - vm_compute. reflexivity.
  - split; [by rewrite H1 | exact H4].
Defined.

Lemma testGenerator_consistent r : consistent (testGenerator steadyReader r).
Proof.
  apply (NewGenerator_consistent steadyReader (testDirectives r)).
  - repeat (constructor; [vm_compute; split; [discriminate | reflexivity]|]).
    constructor.
  - rewrite NewGenerator_built. reflexivity.
Qed.

(** [Generate(8, 9)] and [Generate(20, 19)] of [TestGenPassword]. *)
Lemma Generate_InvalidLength_iff_witness :
  consistent (testGenerator steadyReader (Iface steadyReader [])) /\
  Generate maxLen_amd64 (testGenerator steadyReader (Iface steadyReader [])) 8 9
  = (Returns (None, Some InvalidLengthErr), testGenerator steadyReader (Iface steadyReader [])) /\
  Generate maxLen_amd64 (testGenerator steadyReader (Iface steadyReader [])) 20 19
  = (Returns (None, Some InvalidLengthErr), testGenerator steadyReader (Iface steadyReader [])).
Proof.
  split; [apply testGenerator_consistent|]. split.
  - apply (proj2 (proj2 (Generate_InvalidLength_iff maxLen_amd64 _ 8 9
                           (testGenerator_consistent (Iface steadyReader []))))).
    right. vm_compute. reflexivity.
  - apply (proj2 (proj2 (Generate_InvalidLength_iff maxLen_amd64 _ 20 19
                           (testGenerator_consistent (Iface steadyReader []))))).
    left. lia.
Defined.

(** Two inputs at which [Generate] does not fail with [InvalidLengthErr]
    exactly when [max < min] or [max] is below the sum of the minimums.
    On the generator of [TestGenPassword], whose minimums sum to 10, with a
    provider whose first answer is the error [InvalidLengthErr],
    [Generate(8, 20)] returns that error although 8 <= 20 and 10 <= 20.
    With the digits registered twice with the minimum 2^63 the minimums
    sum to 2^64, the 64-bit counter of the generator is back at 0, and
    [Generate(0, 5)], for which 5 is below the sum, passes the check,
    selects a length and panics when it allocates 2^63 characters. *)
Lemma Generate_InvalidLength_other_causes :
  (sum_min (charsets (testGenerator steadyReader
                        (Iface ([Returns (0, Some InvalidLengthErr)] : script) []))) = 10 /\
   ~ ((exists p,
         (Generate maxLen_amd64
            (testGenerator steadyReader
               (Iface ([Returns (0, Some InvalidLengthErr)] : script) [])) 8 20).1
         = Returns (p, Some InvalidLengthErr))
      <-> 20 < 8 \/
          20 < sum_min (charsets (testGenerator steadyReader
                                    (Iface ([Returns (0, Some InvalidLengthErr)] : script)
                                       []))))) /\
  ((NewGenerator steadyReader (option_of <$> hugeMinimumDirectives)).2 = None /\
   sum_min (charsets (built steadyReader hugeMinimumDirectives)) = 2 ^ 64 /\
   (Generate maxLen_amd64 (built steadyReader hugeMinimumDirectives) 0 5).1 = Panics /\
   ~ ((exists p,
         (Generate maxLen_amd64 (built steadyReader hugeMinimumDirectives) 0 5).1
         = Returns (p, Some InvalidLengthErr))
      <-> 5 < 0 \/ 5 < sum_min (charsets (built steadyReader hugeMinimumDirectives)))).
Proof.
  assert (Hsum : sum_min (charsets (testGenerator steadyReader
                   (Iface ([Returns (0, Some InvalidLengthErr)] : script) []))) = 10).
  { vm_compute. reflexivity. }
  assert (Hsum' : sum_min (charsets (built steadyReader hugeMinimumDirectives)) = 2 ^ 64).
  { vm_compute. reflexivity. }
  assert (Hrun' : (Generate maxLen_amd64 (built steadyReader hugeMinimumDirectives) 0 5).1
                  = Panics).
  { vm_compute. reflexivity. }
  split; [split; [exact Hsum|] | split; [|split; [exact Hsum'|split; [exact Hrun'|]]]].
  - rewrite Hsum. intros [H _].
    destruct H as [?|?]; [|lia..]. exists None. vm_compute. reflexivity.
  - vm_compute. reflexivity.
  - rewrite Hsum', Hrun'. intros [_ H]. destruct H as [p Hp]; [right; lia|]. discriminate.
Qed.

(** A provider that answers the length selection and fails at the first
    character: [Generate(11, 14)] returns nil and that error. *)
Lemma Generate_propagates_provider_error_witness :
  (Generate maxLen_amd64
     (testGenerator steadyReader
        (Iface ([Returns (3, None); Returns (0, Some (RandomErr "boom"))] : script) []))
     11 14).1 = Returns (None, Some (RandomErr "boom")).
Proof.
  destruct (Generate_propagates_provider_error maxLen_amd64
              (testGenerator steadyReader
                 (Iface ([Returns (3, None); Returns (0, Some (RandomErr "boom"))] : script) []))
              11 14 _ _ (surjective_pairing _)) as (t & Hext & Hlast).
  apply extends_calls in Hext. vm_compute in Hext. subst t.
  apply (Hlast (Call 26 (Returns (0, Some (RandomErr "boom")))) (RandomErr "boom")).
  - right. left.
  - reflexivity.
Defined.

(** [NewGenerator()] of [TestGenPassword] fails; the configuration of the
    test is accepted. *)
Lemma NewGenerator_NoCharacters_iff_witness :
  NewGenerator steadyReader (option_of <$> []) = (None, Some NoCharactersErr) /\
  exists g,
    NewGenerator steadyReader (option_of <$> testDirectives (Iface steadyReader []))
    = (Some g, None) /\
    charsets g = registered (testDirectives (Iface steadyReader [])).
Proof.
  split.
  - apply (proj1 (NewGenerator_NoCharacters_iff steadyReader [])). reflexivity.
  - apply (proj1 (proj2 (NewGenerator_NoCharacters_iff steadyReader
                           (testDirectives (Iface steadyReader []))))).
    vm_compute. discriminate.
Defined.

(** 2^32 directives that each register the same 2^32 characters: the pool
    holds 2^64 characters, the 64-bit counter is back at 0, and construction
    fails with [NoCharactersErr] although the sum of the lengths is not 0. *)
Lemma NewGenerator_pool_overflow :
  sum_len (registered overflowDirectives) = 2 ^ 64 /\
  ~ (NewGenerator steadyReader (option_of <$> overflowDirectives)
     = (None, Some NoCharactersErr)
     <-> sum_len (registered overflowDirectives) = 0).
Proof.
  assert (Hsum : sum_len (registered overflowDirectives) = 2 ^ 64).
  { unfold overflowDirectives. rewrite registered_replicate, sum_len_replicate. cbn [set].
    rewrite len_replicate. rewrite Z2Nat.id by done. reflexivity. }
  split; [done|]. intros [H _].
  assert (Hfail : NewGenerator steadyReader (option_of <$> overflowDirectives)
                  = (None, Some NoCharactersErr)).
  { apply NewGenerator_fails_iff. rewrite Hsum. reflexivity. }
  apply H in Hfail. rewrite Hsum in Hfail. discriminate.
Qed.


(** A set of digits with minimum 0 and an empty set with minimum 1, with
    the counting provider: the generator is built, and [Generate(1, 5)]
    selects the length 1 and asks the provider for a number below 0. *)
Lemma empty_set_with_minimum_witness :
  (exists g, NewGenerator steadyReader
               (option_of <$> UseRandom (Iface (Counter 0) []) :: emptySetDirectives 0)
             = (Some g, None)) /\
  exists t a,
    extends (Iface (Counter 0) [])
      (random_ (Generate maxLen_amd64
                  (built steadyReader (UseRandom (Iface (Counter 0) []) :: emptySetDirectives 0))
                  1 5).2)
      (t ++ [Call 0 a]).
Proof.
  destruct (empty_set_with_minimum maxLen_amd64 steadyReader
              (UseRandom (Iface (Counter 0) []) :: emptySetDirectives 0)
              [mkCharSet Digits 0] (mkCharSet [] 1) [] eq_refl eq_refl
              ltac:(simpl; lia)
              ltac:(exists (mkCharSet Digits 0); split; [left | discriminate])
              ltac:(vm_compute; reflexivity))
    as ((g & Hg & _) & Hdraw & _).
  split; [by exists g|].
  destruct (Hdraw (built steadyReader (UseRandom (Iface (Counter 0) []) :: emptySetDirectives 0))
              1 5 1
              (getRandomLength
                 (built steadyReader (UseRandom (Iface (Counter 0) []) :: emptySetDirectives 0))
                 1 5).2
              []
              (getRandomLength
                 (built steadyReader (UseRandom (Iface (Counter 0) []) :: emptySetDirectives 0))
                 1 5).2)
    as (t & a & Hext & _).
  - vm_compute. reflexivity.
  - vm_compute. reflexivity.
  - vm_compute. discriminate.
  - vm_compute. discriminate.
  - vm_compute. reflexivity.
  - exists t, a. exact Hext.
Defined.

(** The digits have minimum 1 and the reader behind the default provider
    fails from its second read on.  [Generate(2, 5)] selects the length 2,
    enters the first phase, and returns the provider's error from the draw
    for the digits: the calls made have the bounds 4 and 10, none has 0. *)
Lemma Generate_stops_before_empty_set :
  (NewGenerator (dryReader 1) (option_of <$> emptySetDirectives 1)).2 = None /\
  (getRandomLength (built (dryReader 1) (emptySetDirectives 1)) 2 5).1
  = Returns (2, None) /\
  (Generate maxLen_amd64 (built (dryReader 1) (emptySetDirectives 1)) 2 5).1
  = Returns (None, Some (RandomErr "crypto/rand: read failed")) /\
  bound <$> calls (random_
     (Generate maxLen_amd64 (built (dryReader 1) (emptySetDirectives 1)) 2 5).2)
  = [4; 10].
Proof. vm_compute. done. Qed.

(** The empty sequence reaches [shuffle] from the API: on a generator whose
    minimums are 0, [Generate(0, 0)] selects the length 0, collects no
    character, and panics in [shuffle] when the default provider is asked
    for a number below 0. *)
Lemma Generate_zero_length_panics :
  (NewGenerator steadyReader (option_of <$> digitsDirectives)).2 = None /\
  (Generate maxLen_amd64 (built steadyReader digitsDirectives) 0 0).1 = Panics.
Proof. split; [vm_compute; reflexivity | lazy; reflexivity]. Qed.

(** ** The further properties at concrete inputs *)

(** [random.Get(10)] on a reader whose first number is 0. *)
Lemma random_Get_outcomes_witness :
  ((random_Get steadyReader 10).1 = Panics <-> 10 = 0 \/ 2 ^ 63 <= 10) /\
  0 <= 0 < 10.
Proof.
  destruct (random_Get_outcomes steadyReader 10) as [H1 H2].
  - unfold is_uint, uint_size. lia.
  - split; [exact H1|]. apply (H2 0 None). vm_compute. reflexivity.
Defined.

(** [Generate(0, 2^63)] on a generator of digits with minimum 0 and the
    default provider: the span is 2^63 + 1. *)
Lemma Generate_default_huge_span_witness :
  (Generate maxLen_amd64 (built steadyReader digitsDirectives) 0 (2 ^ 63)).1 = Panics.
Proof.
  rewrite (Generate_default_huge_span maxLen_amd64 (built steadyReader digitsDirectives)
             0 (2 ^ 63) steadyReader []).
  - reflexivity.
  - reflexivity.
  - unfold is_uint, uint_size. lia.
  - unfold is_uint, uint_size. lia.
  - change (gmin (built steadyReader digitsDirectives)) with 0.
    unfold is_uint, uint_size. lia.
  - lia.
  - change (gmin (built steadyReader digitsDirectives)) with 0. lia.
  - change (gmin (built steadyReader digitsDirectives)) with 0. lia.
Defined.

(** Three digits drawn with the counting provider started at 5: the
    numbers 5, 6 and 7 give the password 567. *)
Lemma getRandomChars_draws_witness :
  exists ks b,
    (getRandomChars maxLen_amd64 (Iface (Counter 5) []) Digits 3).1
    = Returns (Some b, None) /\
    Forall2 (fun k x => Digits !! Z.to_nat k = Some x) ks b /\
    length b = 3%nat.
Proof.
  destruct (getRandomChars_draws maxLen_amd64 (Iface (Counter 5) []) Digits 3
              (Some (runes "567"))
              (getRandomChars maxLen_amd64 (Iface (Counter 5) []) Digits 3).2)
    as (ks & b & Hb & _ & Hall & Hlen & _).
  - vm_compute. reflexivity.
  - exists ks, b. injection Hb as <-.
    split; [vm_compute; reflexivity|]. split; [exact Hall | exact Hlen].
Defined.

(** The same call, seen from a provider that answers every bound. *)
Lemma getRandomChars_total_witness :
  exists b,
    (getRandomChars maxLen_amd64 (Iface (Counter 5) []) Digits 3).1
    = Returns (Some b, None) /\
    len b = 3 /\ Forall (fun x => x ∈ Digits) b.
Proof.
  destruct (getRandomChars_total maxLen_amd64 (2 ^ 63) (Iface (Counter 5) []) Digits 3)
    as (b & r' & Hrun & Hlen & Hall & _).
  - apply counter_dependable.
  - discriminate.
  - vm_compute. reflexivity.
  - vm_compute. split; [discriminate | reflexivity].
  - unfold maxLen_amd64. lia.
  - exists b. rewrite Hrun. auto.
Defined.

(** [Generate(8, 20)] on the generator of [TestGenPassword] with the
    counting provider. *)
Lemma Generate_succeeds_witness :
  exists p,
    (Generate maxLen_amd64 (testGenerator steadyReader (Iface (Counter 5) [])) 8 20).1
    = Returns (Some p, None) /\
    10 <= len p <= 20.
Proof.
  destruct (Generate_succeeds maxLen_amd64 (2 ^ 63)
              (testGenerator steadyReader (Iface (Counter 5) [])) 8 20)
    as (p & g' & Hrun & Hlen & _).
  - lia.
  - exact (counter_dependable (2 ^ 63) 5 []).
  - split; [vm_compute; reflexivity|]. split; [vm_compute; reflexivity|].
    split; [vm_compute; reflexivity|].
    repeat (constructor; [split; [vm_compute; discriminate | intros _; discriminate]|]).
    constructor.
  - repeat (constructor; [vm_compute; reflexivity|]). constructor.
  - vm_compute. reflexivity.
  - unfold is_uint, uint_size. lia.
  - unfold is_uint, uint_size. lia.
  - lia.
  - vm_compute. discriminate.
  - vm_compute. discriminate.
  - vm_compute. discriminate.
  - lia.
  - exists p. rewrite Hrun. split; [reflexivity|].
    change (Z.max 8 (gmin (testGenerator steadyReader (Iface (Counter 5) [])))) with 10 in Hlen.
    exact Hlen.
Defined.

(** [Generate(12, 12)] on the same generator. *)
Lemma Generate_fixed_length_witness :
  exists p,
    (Generate maxLen_amd64 (testGenerator steadyReader (Iface (Counter 5) [])) 12 12).1
    = Returns (Some p, None) /\
    len p = 12.
Proof.
  assert (Hrun : exists p,
    Generate maxLen_amd64 (testGenerator steadyReader (Iface (Counter 5) [])) 12 12
    = (Returns (Some p, None),
       (Generate maxLen_amd64 (testGenerator steadyReader (Iface (Counter 5) [])) 12 12).2)).
  { eexists. vm_compute. reflexivity. }
  destruct Hrun as [p Hrun]. exists p. split; [by rewrite Hrun|].
  apply (Generate_fixed_length maxLen_amd64
           (testGenerator steadyReader (Iface (Counter 5) [])) 12 12 p
           (Generate maxLen_amd64 (testGenerator steadyReader (Iface (Counter 5) [])) 12 12).2).
  - vm_compute. reflexivity.
  - apply testGenerator_consistent.
  - apply counter_contract.
  - unfold is_uint, uint_size. lia.
  - unfold is_uint, uint_size. lia.
  - vm_compute. reflexivity.
  - exact Hrun.
Defined.

(** The number 30 in the pool of [TestGenPassword]: the fifth upper case
    letter. *)
Lemma pick_outcomes_witness :
  pick (registered testOptions) 30 <> Panics /\
  (pick (registered testOptions) 30 = Returns None
   <-> sum_len (registered testOptions) <= 30) /\
  exists c, c ∈ registered testOptions /\ 69 ∈ set c.
Proof.
  destruct (pick_outcomes (registered testOptions) 30) as (H1 & H2 & H3).
  - unfold is_uint, uint_size. lia.
  - split; [exact H1|]. split; [exact H2|]. apply H3. vm_compute. reflexivity.
Defined.

(** The options of [TestGenPassword] after a [WithRandom]. *)
Lemma NewGenerator_options_witness :
  exists g,
    NewGenerator steadyReader (option_of <$> testDirectives (Iface (Counter 5) []))
    = (Some g, None) /\
    charsets g = registered (testDirectives (Iface (Counter 5) [])) /\
    random_ g = Iface (Counter 5) [].
Proof.
  exists (testGenerator steadyReader (Iface (Counter 5) [])).
  assert (H : NewGenerator steadyReader (option_of <$> testDirectives (Iface (Counter 5) []))
              = (Some (testGenerator steadyReader (Iface (Counter 5) [])), None)).
  { rewrite NewGenerator_built. reflexivity. }
  destruct (NewGenerator_options steadyReader _ _ H) as (H1 & _ & _ & _ & H5 & _).
  split; [exact H|]. split; [exact H1|].
  apply (H5 [] (Iface (Counter 5) []) testOptions); [reflexivity|].
  repeat constructor.
Defined.

(** [Generate(8, 20)] on the generator of [TestGenPassword]: a password of
    15 characters, 30 calls. *)
Lemma Generate_asks_witness :
  exists p t,
    (Generate maxLen_amd64 (testGenerator steadyReader (Iface (Counter 5) [])) 8 20).1
    = Returns (Some p, None) /\
    calls (random_
      (Generate maxLen_amd64 (testGenerator steadyReader (Iface (Counter 5) [])) 8 20).2) = t /\
    len t = 2 * len p.
Proof.
  assert (Hrun : exists p,
    Generate maxLen_amd64 (testGenerator steadyReader (Iface (Counter 5) [])) 8 20
    = (Returns (Some p, None),
       (Generate maxLen_amd64 (testGenerator steadyReader (Iface (Counter 5) [])) 8 20).2)).
  { eexists. vm_compute. reflexivity. }
  destruct Hrun as [p Hrun].
  destruct (Generate_asks maxLen_amd64
              (testGenerator steadyReader (Iface (Counter 5) [])) 8 20 p
              (Generate maxLen_amd64 (testGenerator steadyReader (Iface (Counter 5) [])) 8 20).2)
    as (t & Ht & _ & Hlen).
  - vm_compute. reflexivity.
  - apply testGenerator_consistent.
  - apply counter_contract.
  - unfold is_uint, uint_size. lia.
  - unfold is_uint, uint_size. lia.
  - exact Hrun.
  - exists p, t. split; [by rewrite Hrun|]. split; [exact Ht | exact Hlen].
Defined.

(** The same call: every character comes from one of the four sets. *)
Lemma Generate_alphabet_witness :
  exists p,
    (Generate maxLen_amd64 (testGenerator steadyReader (Iface (Counter 5) [])) 8 20).1
    = Returns (Some p, None) /\
    Forall (fun x => exists c,
              c ∈ charsets (testGenerator steadyReader (Iface (Counter 5) [])) /\ x ∈ set c) p.
Proof.
  assert (Hrun : exists p,
    Generate maxLen_amd64 (testGenerator steadyReader (Iface (Counter 5) [])) 8 20
    = (Returns (Some p, None),
       (Generate maxLen_amd64 (testGenerator steadyReader (Iface (Counter 5) [])) 8 20).2)).
  { eexists. vm_compute. reflexivity. }
  destruct Hrun as [p Hrun]. exists p. split; [by rewrite Hrun|].
  exact (Generate_alphabet maxLen_amd64 _ 8 20 p _ Hrun).
Defined.

(** The third iteration of the loop of [TestGenPassword] with a reader that
    never fails. *)
Lemma TestGenPassword_passes_witness :
  unfailing steadyReader /\
  exists p,
    (Generate maxLen_amd64
       (run maxLen_amd64 (replicate 2 (8, 20)) (built steadyReader testOptions)) 8 20).1
    = Returns (Some p, None) /\
    10 <= len p <= 20 /\ 4 <= numSpecial (countClasses p).
Proof.
  assert (H : unfailing steadyReader) by (intros n; discriminate).
  split; [exact H|].
  destruct (TestGenPassword_passes maxLen_amd64 steadyReader 2 H)
    as (_ & _ & _ & _ & p & Hrun & Hlen & _ & _ & _ & Hs).
  - vm_compute. discriminate.
  - eauto.
Defined.

(** The order cab of the sequence abc: the answers are 2 and 0. *)
Lemma shuffle_reaches_every_order_witness :
  exists ks,
    len ks = 2 /\
    (shuffle (Iface (scripted ks) []) (runes "abc")).1 = (Returns None, runes "cab").
Proof.
  destruct (shuffle_reaches_every_order (runes "abc") (runes "cab"))
    as (ks & Hlen & _ & Hrun).
  - discriminate.
  - exact (Permutation_cons_append [97; 98] 99).
  - vm_compute. reflexivity.
  - exists ks. split; [exact Hlen|]. by rewrite Hrun.
Defined.

(** The answers 2 and 0 on the sequence abc, on two providers with
    different histories. *)
Lemma shuffle_answers_determined_witness :
  NoDup (runes "abc") /\ ([2; 0] : list uint) = [2; 0].
Proof.
  assert (Hnd : NoDup (runes "abc")).
  { apply (bool_decide_unpack _). vm_compute. reflexivity. }
  split; [exact Hnd|].
  apply (shuffle_answers_determined (runes "abc") [2; 0] [2; 0] []
           [Call 7 (Returns (3, None))] Hnd).
  - vm_compute. reflexivity.
  - reflexivity.
  - reflexivity.
  - change (len (runes "abc")) with 3. simpl.
    constructor; [intros k [= <-]; simpl; lia|].
    constructor; [intros k [= <-]; simpl; lia|]. constructor.
  - change (len (runes "abc")) with 3. simpl.
    constructor; [intros k [= <-]; simpl; lia|].
    constructor; [intros k [= <-]; simpl; lia|]. constructor.
  - vm_compute. reflexivity.
Defined.
